(** * verify: the secret scanner (cli/index.js) and the scan archive (API)

    A shallow embedding of [scanFile], [scanForSecrets] and of the
    [GET /scans] handler, and the properties of the specification that
    concern them.

    Conventions.  A JavaScript string is the list of its UTF-16 code
    units ([N]); a file is the list of its bytes, turned into a string
    the way [fs.readFileSync(p, "utf8")] does; the file system the
    traversal sees is a finite tree; an exception is [None] in the
    option monad. *)

From Stdlib Require Import List NArith ZArith Bool Lia.
From Stdlib.Strings Require Import Ascii String Byte.
From Stdlib Require Import Permutation Sorted.
Import ListNotations.

Local Open Scope N_scope.
Local Open Scope list_scope.

(* ================================================================== *)
(** * JavaScript strings *)

Definition char16 := N.
Definition jsstring := list char16.

(** ** [Buffer.toString("utf8")]: UTF-8 decoding with replacement

    Node never throws on a malformed sequence: it emits U+FFFD for every
    maximal ill-formed part and goes on (the WHATWG decoder). *)

Record utf8_state := Utf8 {
  u_cp : N;          (* code point accumulated so far *)
  u_need : N;        (* continuation bytes still expected *)
  u_lower : N;       (* bounds on the next continuation byte *)
  u_upper : N }.

Definition utf8_idle : utf8_state := Utf8 0 0 0x80 0xBF.

Definition REPLACEMENT : char16 := 0xFFFD.

(** A code point as one code unit, or as a surrogate pair. *)
Definition emit_cp (c : N) : jsstring :=
  if c <? 0x10000 then [c]
  else let c' := c - 0x10000 in
       [0xD800 + N.shiftr c' 10; 0xDC00 + N.land c' 0x3FF].

(** The decoder on a byte that starts a sequence. *)
Definition utf8_lead (b : N) : jsstring * utf8_state :=
  if b <=? 0x7F then ([b], utf8_idle)
  else if (0xC2 <=? b) && (b <=? 0xDF) then
    ([], Utf8 (N.land b 0x1F) 1 0x80 0xBF)
  else if (0xE0 <=? b) && (b <=? 0xEF) then
    ([], Utf8 (N.land b 0xF) 2
              (if b =? 0xE0 then 0xA0 else 0x80)
              (if b =? 0xED then 0x9F else 0xBF))
  else if (0xF0 <=? b) && (b <=? 0xF4) then
    ([], Utf8 (N.land b 0x7) 3
              (if b =? 0xF0 then 0x90 else 0x80)
              (if b =? 0xF4 then 0x8F else 0xBF))
  else ([REPLACEMENT], utf8_idle).

Fixpoint utf8_run (st : utf8_state) (bs : list N) : jsstring :=
  match bs with
  | [] => if u_need st =? 0 then [] else [REPLACEMENT]
  | b :: bs' =>
      if u_need st =? 0 then
        let (out, st') := utf8_lead b in out ++ utf8_run st' bs'
      else if (u_lower st <=? b) && (b <=? u_upper st) then
        let cp' := N.lor (N.shiftl (u_cp st) 6) (N.land b 0x3F) in
        if u_need st =? 1 then emit_cp cp' ++ utf8_run utf8_idle bs'
        else utf8_run (Utf8 cp' (u_need st - 1) 0x80 0xBF) bs'
      else
        (* ill-formed: replace what was read, take [b] up again *)
        let (out, st') := utf8_lead b in
        REPLACEMENT :: out ++ utf8_run st' bs'
  end.

Definition toString_utf8 (buf : list byte) : jsstring :=
  utf8_run utf8_idle (map Byte.to_N buf).

(** A string literal of the (UTF-8) source text. *)
Definition lit (s : string) : jsstring :=
  toString_utf8 (list_byte_of_string s).
Arguments lit s%_string.

(** ** String methods *)

Fixpoint jseq (s t : jsstring) : bool :=
  match s, t with
  | [], [] => true
  | a :: s', b :: t' => (a =? b) && jseq s' t'
  | _, _ => false
  end.

(** [s.startsWith(t)] *)
Fixpoint startsWith (s t : jsstring) {struct t} : bool :=
  match t, s with
  | [], _ => true
  | b :: t', a :: s' => (a =? b) && startsWith s' t'
  | _ :: _, [] => false
  end.

(** [s.includes(t)] *)
Fixpoint includes (s t : jsstring) : bool :=
  startsWith s t ||
  match s with
  | [] => false
  | _ :: s' => includes s' t
  end.

(** [s.endsWith(t)] *)
Definition endsWith (s t : jsstring) : bool :=
  startsWith (rev s) (rev t).

Definition ascii_upper (c : char16) : char16 :=
  if (0x61 <=? c) && (c <=? 0x7A) then c - 32 else c.

Definition ascii_lower (c : char16) : char16 :=
  if (0x41 <=? c) && (c <=? 0x5A) then c + 32 else c.

(** [s.toLowerCase()].  Exact on every code unit whose lower-case form
    holds an ASCII unit: A-Z, U+0130 (to [i] and U+0307) and U+212A (the
    Kelvin sign, to [k]).  Every other unit lower-cases to units outside
    ASCII and is kept as it is: the file-name rules below only look for
    ASCII text, so they cannot tell the difference. *)
Definition lower_unit (c : char16) : jsstring :=
  if c =? 0x130 then [0x69; 0x307]
  else if c =? 0x212A then [0x6B]
  else [ascii_lower c].

Definition toLowerCase (s : jsstring) : jsstring := flat_map lower_unit s.

(* ================================================================== *)
(** * [path] (POSIX) *)

Module Path.

Definition SLASH : char16 := 47.
Definition DOT : char16 := 46.

Definition is_slash (c : char16) : bool := c =? SLASH.

Fixpoint dropWhile {A} (f : A -> bool) (l : list A) : list A :=
  match l with
  | [] => []
  | x :: l' => if f x then dropWhile f l' else l
  end.

Fixpoint takeWhile {A} (f : A -> bool) (l : list A) : list A :=
  match l with
  | [] => []
  | x :: l' => if f x then x :: takeWhile f l' else []
  end.

(** [path.basename(p)]: trailing slashes are dropped, then everything
    after the last slash is returned. *)
Definition basename (p : jsstring) : jsstring :=
  rev (takeWhile (fun c => negb (is_slash c))
                 (dropWhile is_slash (rev p))).

(** The segments of a path: the pieces between slashes. *)
Fixpoint split (p : jsstring) : list jsstring :=
  match p with
  | [] => [[]]
  | c :: p' =>
      if is_slash c then [] :: split p'
      else match split p' with
           | [] => [[c]]
           | seg :: segs => (c :: seg) :: segs
           end
  end.

Definition dotdot : jsstring := [DOT; DOT].

(** One segment of [normalizeString]; [res] is the stack of segments
    kept so far, last one first. *)
Definition normalize_step (allowAboveRoot : bool)
    (res : list jsstring) (seg : jsstring) : list jsstring :=
  if jseq seg [] || jseq seg [DOT] then res
  else if jseq seg dotdot then
    match res with
    | last :: res' =>
        if jseq last dotdot
        then (if allowAboveRoot then dotdot :: res else res)
        else res'
    | [] => if allowAboveRoot then [dotdot] else []
    end
  else seg :: res.

Definition normalizeString (p : jsstring) (allowAboveRoot : bool)
  : list jsstring :=
  rev (fold_left (normalize_step allowAboveRoot) (split p) []).

Fixpoint unsplit (segs : list jsstring) : jsstring :=
  match segs with
  | [] => []
  | [seg] => seg
  | seg :: segs' => seg ++ SLASH :: unsplit segs'
  end.

(** [path.normalize(p)] *)
Definition normalize (p : jsstring) : jsstring :=
  match p with
  | [] => [DOT]
  | c :: _ =>
      let isAbsolute := is_slash c in
      let trailingSeparator := is_slash (last p 0) in
      let body := unsplit (normalizeString p (negb isAbsolute)) in
      match body with
      | [] => if isAbsolute then [SLASH]
              else if trailingSeparator then [DOT; SLASH] else [DOT]
      | _ => (if isAbsolute then [SLASH] else []) ++ body ++
             (if trailingSeparator then [SLASH] else [])
      end
  end.

(** [path.join(a, b)] *)
Definition join (a b : jsstring) : jsstring :=
  match a, b with
  | [], [] => [DOT]
  | [], _ => normalize b
  | _, [] => normalize a
  | _, _ => normalize (a ++ SLASH :: b)
  end.

End Path.

(* ================================================================== *)
(** * Regular expressions

    Only the truth value of [content.match(re)] is used by the scanner,
    so a pattern is modelled by the language it denotes: [content.match]
    is truthy exactly when some substring of [content] is in it. *)

Inductive atom :=
| Chr (c : char16)                       (* a pattern character *)
| Class (ranges : list (char16 * char16)) (* [a-z0-9_] *)
| Dot                                    (* . *)
| Space                                  (* \s *)
| NonSpace.                              (* \S *)

Inductive regex :=
| Void                                   (* no string; for derivatives *)
| Eps
| One (a : atom)
| Seq (r1 r2 : regex)
| Alt (r1 r2 : regex)                    (* r1|r2 *)
| Star (r : regex).                      (* r* *)

Definition Plus (r : regex) : regex := Seq r (Star r).        (* r+ *)
Definition Opt (r : regex) : regex := Alt r Eps.              (* r? *)

Fixpoint Repeat (n : nat) (r : regex) : regex :=              (* r{n} *)
  match n with
  | O => Eps
  | S n' => Seq r (Repeat n' r)
  end.

Definition AtLeast (n : nat) (r : regex) : regex :=           (* r{n,} *)
  Seq (Repeat n r) (Star r).

Fixpoint Str (s : jsstring) : regex :=
  match s with
  | [] => Eps
  | c :: s' => Seq (One (Chr c)) (Str s')
  end.

Record RegExp := { source : regex; ignoreCase : bool }.

Definition isLineTerminator (c : char16) : bool :=
  (c =? 0x0A) || (c =? 0x0D) || (c =? 0x2028) || (c =? 0x2029).

(** WhiteSpace and LineTerminator of ECMAScript: what [\s] matches. *)
Definition isSpace (c : char16) : bool :=
  (c =? 0x09) || (c =? 0x0B) || (c =? 0x0C) || (c =? 0x20) ||
  (c =? 0xA0) || (c =? 0x1680) || ((0x2000 <=? c) && (c <=? 0x200A)) ||
  (c =? 0x202F) || (c =? 0x205F) || (c =? 0x3000) || (c =? 0xFEFF) ||
  isLineTerminator c.

Definition in_ranges (rs : list (char16 * char16)) (c : char16) : bool :=
  existsb (fun r => (fst r <=? c) && (c <=? snd r)) rs.

(** [Canonicalize] without the [u] flag: upper-casing, except that a
    unit outside ASCII is never taken to an ASCII one.  The patterns of
    the scanner only name ASCII characters, so upper-casing outside
    ASCII is left out. *)
Definition canonicalize (i : bool) (c : char16) : char16 :=
  if i then ascii_upper c else c.

Definition atom_match (i : bool) (a : atom) (c : char16) : bool :=
  match a with
  | Chr x => canonicalize i c =? canonicalize i x
  | Class rs =>
      in_ranges rs c ||
      (i && (in_ranges rs (ascii_upper c) || in_ranges rs (ascii_lower c)))
  | Dot => negb (isLineTerminator c)
  | Space => isSpace c
  | NonSpace => negb (isSpace c)
  end.

(** The language of a pattern. *)
Inductive matches (i : bool) : regex -> jsstring -> Prop :=
| m_eps : matches i Eps []
| m_one a c : atom_match i a c = true -> matches i (One a) [c]
| m_seq r1 r2 s1 s2 :
    matches i r1 s1 -> matches i r2 s2 -> matches i (Seq r1 r2) (s1 ++ s2)
| m_alt_l r1 r2 s : matches i r1 s -> matches i (Alt r1 r2) s
| m_alt_r r1 r2 s : matches i r2 s -> matches i (Alt r1 r2) s
| m_star_nil r : matches i (Star r) []
| m_star_app r s1 s2 :
    matches i r s1 -> matches i (Star r) s2 -> matches i (Star r) (s1 ++ s2).

(** The matcher: Brzozowski derivatives. *)
Fixpoint nullable (r : regex) : bool :=
  match r with
  | Void => false
  | Eps => true
  | One _ => false
  | Seq r1 r2 => nullable r1 && nullable r2
  | Alt r1 r2 => nullable r1 || nullable r2
  | Star _ => true
  end.

Definition seq_ (r1 r2 : regex) : regex :=
  match r1, r2 with
  | Void, _ => Void
  | _, Void => Void
  | Eps, _ => r2
  | _, _ => Seq r1 r2
  end.

Definition alt_ (r1 r2 : regex) : regex :=
  match r1, r2 with
  | Void, _ => r2
  | _, Void => r1
  | _, _ => Alt r1 r2
  end.

Fixpoint deriv (i : bool) (c : char16) (r : regex) : regex :=
  match r with
  | Void => Void
  | Eps => Void
  | One a => if atom_match i a c then Eps else Void
  | Seq r1 r2 =>
      if nullable r1
      then alt_ (seq_ (deriv i c r1) r2) (deriv i c r2)
      else seq_ (deriv i c r1) r2
  | Alt r1 r2 => alt_ (deriv i c r1) (deriv i c r2)
  | Star r1 => seq_ (deriv i c r1) (Star r1)
  end.

(** Some prefix of [s] is in the language of [r]. *)
Fixpoint match_here (i : bool) (r : regex) (s : jsstring) : bool :=
  nullable r ||
  match s with
  | [] => false
  | c :: s' => match_here i (deriv i c r) s'
  end.

(** Some substring of [s] is in the language of [r]. *)
Fixpoint search (i : bool) (r : regex) (s : jsstring) : bool :=
  match_here i r s ||
  match s with
  | [] => false
  | _ :: s' => search i r s'
  end.

(** All of [s] is in the language of [r]. *)
Fixpoint accepts (i : bool) (r : regex) (s : jsstring) : bool :=
  match s with
  | [] => nullable r
  | c :: s' => accepts i (deriv i c r) s'
  end.

(** The truth value of [content.match(re)]. *)
Definition jsmatch (content : jsstring) (re : RegExp) : bool :=
  search (ignoreCase re) (source re) content.

(** ** The patterns of [scanFile] *)

Definition chr (a : Ascii.ascii) : char16 := Ascii.N_of_ascii a.
Arguments chr a%_char.
Definition DQUOTE : char16 := 34.
Definition SQUOTE : char16 := 39.

Definition digit : char16 * char16 := (chr "0", chr "9").
Definition upper : char16 * char16 := (chr "A", chr "Z").
Definition lower : char16 * char16 := (chr "a", chr "z").
Definition only (c : char16) : char16 * char16 := (c, c).

Definition quote : regex := One (Class [only DQUOTE; only SQUOTE]).
Definition spaces : regex := Star (One Space).
Definition seqs (rs : list regex) : regex := fold_right Seq Eps rs.

(** [/AKIA[0-9A-Z]{16}/] *)
Definition re_aws_key : RegExp :=
  {| source := seqs [Str (lit "AKIA"); Repeat 16 (One (Class [digit; upper]))];
     ignoreCase := false |}.

(** [/password\s*=\s*['"].+['"]/i] *)
Definition re_password : RegExp :=
  {| source := seqs [Str (lit "password"); spaces; One (Chr (chr "="));
                     spaces; quote; Plus (One Dot); quote];
     ignoreCase := true |}.

(** [/api[_-]?key\s*=\s*['"].+['"]/i] *)
Definition re_api_key : RegExp :=
  {| source := seqs [Str (lit "api");
                     Opt (One (Class [only (chr "_"); only (chr "-")]));
                     Str (lit "key"); spaces; One (Chr (chr "="));
                     spaces; quote; Plus (One Dot); quote];
     ignoreCase := true |}.

(** [/sk_live_[0-9a-zA-Z]{24,}/] *)
Definition re_stripe : RegExp :=
  {| source := seqs [Str (lit "sk_live_");
                     AtLeast 24 (One (Class [digit; lower; upper]))];
     ignoreCase := false |}.

(** [/mongodb:\/\/\S+/i] *)
Definition re_mongodb : RegExp :=
  {| source := seqs [Str (lit "mongodb://"); Plus (One NonSpace)];
     ignoreCase := true |}.

(** [/postgres:\/\/\S+/i] *)
Definition re_postgres : RegExp :=
  {| source := seqs [Str (lit "postgres://"); Plus (One NonSpace)];
     ignoreCase := true |}.

(** [/eyJ[A-Za-z0-9_-]+\.[A-Za-z0-9_-]+\.[A-Za-z0-9_-]+/] *)
Definition base64url : regex :=
  Plus (One (Class [upper; lower; digit; only (chr "_"); only (chr "-")])).

Definition re_jwt : RegExp :=
  {| source := seqs [Str (lit "eyJ"); base64url; One (Chr (chr "."));
                     base64url; One (Chr (chr ".")); base64url];
     ignoreCase := false |}.

(** [/crypto\.createHash\(["'](md5|sha1)["']\)/i] *)
Definition re_weak_hash : RegExp :=
  {| source := seqs [Str (lit "crypto.createHash("); quote;
                     Alt (Str (lit "md5")) (Str (lit "sha1"));
                     quote; One (Chr (chr ")"))];
     ignoreCase := true |}.

(** [/crypto\.createHash\(["']sha256["']\)/i] *)
Definition re_sha256 : RegExp :=
  {| source := seqs [Str (lit "crypto.createHash("); quote;
                     Str (lit "sha256"); quote; One (Chr (chr ")"))];
     ignoreCase := true |}.

(** [/res\.cookie\(/i] *)
Definition re_cookie : RegExp :=
  {| source := Str (lit "res.cookie("); ignoreCase := true |}.

(** [/(admin|root)\s*[:=]\s*(admin|password|1234)/i] *)
Definition re_default_cred : RegExp :=
  {| source := seqs [Alt (Str (lit "admin")) (Str (lit "root")); spaces;
                     One (Class [only (chr ":"); only (chr "=")]); spaces;
                     Alt (Str (lit "admin"))
                         (Alt (Str (lit "password")) (Str (lit "1234")))];
     ignoreCase := true |}.

(** [/console\.log\(.+password/i] and [/console\.log\(.+token/i] *)
Definition re_log_password : RegExp :=
  {| source := seqs [Str (lit "console.log("); Plus (One Dot);
                     Str (lit "password")];
     ignoreCase := true |}.

Definition re_log_token : RegExp :=
  {| source := seqs [Str (lit "console.log("); Plus (One Dot);
                     Str (lit "token")];
     ignoreCase := true |}.

(** [/s3:\/\/\S+/i] *)
Definition re_s3 : RegExp :=
  {| source := seqs [Str (lit "s3://"); Plus (One NonSpace)];
     ignoreCase := true |}.

(** [/Error:/i] and [/at\s+\S+/] *)
Definition re_error : RegExp :=
  {| source := Str (lit "Error:"); ignoreCase := true |}.

Definition re_stack_frame : RegExp :=
  {| source := seqs [Str (lit "at"); Plus (One Space); Plus (One NonSpace)];
     ignoreCase := false |}.

(* ================================================================== *)
(** * Findings and [scanFile] *)

Inductive Category :=
| Secrets | Crypto | Cookies | Credentials | Logging | Cloud | Errors
| Dependencies | Code | Database.

Inductive Severity := Critical | High | Medium | Low.

Record issue := Issue {
  category : Category;
  severity : Severity;
  message : jsstring;
  hint : jsstring }.

(** The body of [scanFile] is a run of statements on the array
    [issues]; a statement is modelled by its effect on the array. *)
Definition stmt := list issue -> list issue.

(** [issues.push(x)] *)
Definition push (x : issue) : stmt := fun issues => issues ++ [x].

(** [if (c) issues.push(x);] *)
Definition when (c : bool) (x : issue) : stmt :=
  fun issues => if c then push x issues else issues.

Definition skip : stmt := fun issues => issues.

Definition then_ (s1 s2 : stmt) : stmt := fun issues => s2 (s1 issues).
Notation "s1 ;; s2" := (then_ s1 s2) (at level 61, right associativity).

(** The content checks, for the text [content] of the file. *)
Definition content_checks (filePath content : jsstring) : stmt :=
  when (jsmatch content re_aws_key)
    (Issue Secrets Critical
       (lit "AWS Access Key found in " ++ filePath)
       (lit "Rotate AWS keys and use IAM roles instead of hardcoding.")) ;;
  when (includes content (lit "AWS_SECRET_KEY"))
    (Issue Secrets Critical
       (lit "AWS secret key reference in " ++ filePath)
       (lit "Remove AWS secrets from code. Use environment variables or secret managers.")) ;;
  when (jsmatch content re_password)
    (Issue Secrets Critical
       (lit "Hardcoded password found in " ++ filePath)
       (lit "Never hardcode passwords. Use env vars or secure vaults.")) ;;
  when (includes content (lit "BEGIN PRIVATE KEY"))
    (Issue Secrets Critical
       (lit "Private key content found in " ++ filePath)
       (lit "Remove private keys from source code. Store them securely.")) ;;
  when (jsmatch content re_api_key)
    (Issue Secrets Critical
       (lit "API key found in " ++ filePath)
       (lit "Rotate API keys and store them outside code.")) ;;
  when (jsmatch content re_stripe)
    (Issue Secrets Critical
       (lit "Stripe live secret key found in " ++ filePath)
       (lit "Use test keys in dev. Never commit live keys.")) ;;
  when (jsmatch content re_mongodb)
    (Issue Secrets High
       (lit "MongoDB connection string found in " ++ filePath)
       (lit "Move DB connection strings to env vars.")) ;;
  when (jsmatch content re_postgres)
    (Issue Secrets High
       (lit "Postgres connection string found in " ++ filePath)
       (lit "Store DB credentials securely outside code.")) ;;
  when (jsmatch content re_jwt)
    (Issue Secrets High
       (lit "JWT token found in " ++ filePath)
       (lit "Never commit JWTs. Generate them dynamically.")) ;;
  (* Weak crypto usage *)
  when (jsmatch content re_weak_hash)
    (Issue Crypto High
       (lit "Weak crypto algorithm (MD5/SHA1) used in " ++ filePath)
       (lit "Use bcrypt, Argon2, or SHA256+salt for secure hashing.")) ;;
  when (jsmatch content re_sha256)
    (Issue Crypto Medium
       (lit "Plain SHA256 used for password hashing in " ++ filePath)
       (lit "Use adaptive algorithms like bcrypt or Argon2 for password storage.")) ;;
  (* Unhardened cookies *)
  when (jsmatch content re_cookie && negb (includes content (lit "HttpOnly")))
    (Issue Cookies High
       (lit "Cookie set without HttpOnly flag in " ++ filePath)
       (lit "Add { httpOnly: true } to cookies to prevent XSS attacks.")) ;;
  when (jsmatch content re_cookie && negb (includes content (lit "Secure")))
    (Issue Cookies High
       (lit "Cookie set without Secure flag in " ++ filePath)
       (lit "Add { secure: true } to cookies to enforce HTTPS.")) ;;
  (* Default credentials *)
  when (jsmatch content re_default_cred)
    (Issue Credentials Critical
       (lit "Default credential found in " ++ filePath)
       (lit "Remove default creds. Enforce strong unique passwords.")) ;;
  (* Suspicious logging *)
  when (jsmatch content re_log_password || jsmatch content re_log_token)
    (Issue Logging Medium
       (lit "Sensitive data logged in " ++ filePath)
       (lit "Avoid logging passwords or tokens. Use masked logs.")) ;;
  (* Public cloud configs *)
  when (jsmatch content re_s3 && negb (includes content (lit "private")))
    (Issue Cloud High
       (lit "Potential public S3 bucket reference in " ++ filePath)
       (lit "Ensure S3 buckets are private and access‑controlled.")) ;;
  (* Error messages leaking info *)
  when (jsmatch content re_error && jsmatch content re_stack_frame)
    (Issue Errors Medium
       (lit "Stack trace exposure risk in " ++ filePath)
       (lit "Disable stack traces in production. Use generic error messages.")).

(** The outcome of [fs.readFileSync(filePath, "utf8")]: the bytes of the
    file, or [None] when the call throws (EACCES, EISDIR, ...).  The
    decoding of the bytes itself never throws. *)
Definition read_result := option (list byte).

(** [scanFile(filePath)], given what reading [filePath] yields. *)
Definition scanFile (filePath : jsstring) (read : read_result) : list issue :=
  let lower := toLowerCase (Path.basename filePath) in
  ( (* --- Filename checks --- *)
    when (includes lower (lit ".env"))
      (Issue Secrets Critical
         (lit "Sensitive .env file detected: " ++ filePath)
         (lit "Never commit .env files. Use environment variables or secret managers.")) ;;
    when (includes lower (lit "id_rsa") || endsWith lower (lit ".pem"))
      (Issue Secrets Critical
         (lit "Private key detected: " ++ filePath)
         (lit "Remove private keys from repos. Store them securely outside version control.")) ;;
    when (jseq lower (lit "config.js") || jseq lower (lit "config.json"))
      (Issue Secrets High
         (lit "Config file may contain secrets: " ++ filePath)
         (lit "Check config files for hardcoded credentials. Move sensitive values to env vars.")) ;;
    when (includes lower (lit "secret") || includes lower (lit "password"))
      (Issue Secrets High
         (lit "Potential secret in filename: " ++ filePath)
         (lit "Avoid naming files with 'secret' or 'password'. It signals sensitive content.")) ;;
    when (endsWith lower (lit ".log"))
      (Issue Logging Low
         (lit "Debug log file detected: " ++ filePath)
         (lit "Logs may leak sensitive data. Avoid committing them.")) ;;
    (* --- Content checks --- *)
    match read with
    | Some buf => content_checks filePath (toString_utf8 buf)   (* try *)
    | None => skip                       (* catch: ignore unreadable files *)
    end
  ) [].

(* ================================================================== *)
(** * The traversal: [scanForSecrets]

    What the traversal sees below a path: the outcome of [fs.statSync],
    and with it that of [fs.readFileSync] or [fs.readdirSync]. *)

#[local] Set Warnings "-register-all".
Inductive node :=
| NoStat                                  (* statSync throws *)
| File (read : read_result)               (* isFile() *)
| Dir (files : list (jsstring * node))    (* isDirectory(); the listing *)
| DirNoList                               (* isDirectory(), readdirSync throws *)
| Special.                                (* socket, FIFO, device *)
#[local] Set Warnings "register-all".

Definition excluded : list jsstring :=
  [lit "node_modules"; lit ".git"; lit "dist"].

(** [arr.includes(x)] on an array of strings *)
Definition array_includes (arr : list jsstring) (x : jsstring) : bool :=
  existsb (jseq x) arr.

(** A statement that may throw: [None] is the exception. *)
Definition action := list issue -> option (list issue).

(** [for (const x of xs) body(x);] *)
Fixpoint for_of {A} (body : A -> action) (xs : list A) : action :=
  fun issues =>
    match xs with
    | [] => Some issues
    | x :: rest =>
        match body x issues with
        | Some issues' => for_of body rest issues'
        | None => None
        end
    end.

(** [walk(currentPath)], where [n] is what lies at [currentPath]; the
    array [issues] goes in and comes out. *)
Fixpoint walk (currentPath : jsstring) (n : node) : action :=
  fun issues =>
    match n with
    | NoStat => Some issues                                   (* catch *)
    | File read => Some (issues ++ scanFile currentPath read)
    | Dir files =>
        let base := Path.basename currentPath in
        (* Skip vendor folders *)
        if array_includes excluded base then Some issues
        else for_of (fun entry => let '(file, child) := entry in
                       walk (Path.join currentPath file) child)
                    files issues
    | DirNoList =>
        let base := Path.basename currentPath in
        if array_includes excluded base then Some issues
        else None                               (* readdirSync throws *)
    | Special => Some issues
    end.

(** [scanForSecrets(targetPath)], where [root] is what lies at
    [targetPath]. *)
Definition scanForSecrets (targetPath : jsstring) (root : node)
  : option (list issue) :=
  walk targetPath root [].

(* ================================================================== *)
(** * The rule catalog of the specification

    The second description of [scanFile], after the words of the
    specification: rules are data, a predicate and a finding template,
    listed in catalog order. *)

Record rule := Rule {
  triggered : jsstring -> bool;   (* on the lower-cased base name, or the text *)
  r_category : Category;
  r_severity : Severity;
  r_text : jsstring;              (* the message, up to the path *)
  r_hint : jsstring }.

Definition finding (filePath : jsstring) (r : rule) : issue :=
  Issue (r_category r) (r_severity r) (r_text r ++ filePath) (r_hint r).

Definition rule_env_file : rule :=
  Rule (fun name => includes name (lit ".env"))
    Secrets Critical (lit "Sensitive .env file detected: ")
    (lit "Never commit .env files. Use environment variables or secret managers.").

Definition rule_private_key_file : rule :=
  Rule (fun name => includes name (lit "id_rsa") || endsWith name (lit ".pem"))
    Secrets Critical (lit "Private key detected: ")
    (lit "Remove private keys from repos. Store them securely outside version control.").

Definition rule_config_file : rule :=
  Rule (fun name => jseq name (lit "config.js") || jseq name (lit "config.json"))
    Secrets High (lit "Config file may contain secrets: ")
    (lit "Check config files for hardcoded credentials. Move sensitive values to env vars.").

Definition rule_secret_name : rule :=
  Rule (fun name => includes name (lit "secret") || includes name (lit "password"))
    Secrets High (lit "Potential secret in filename: ")
    (lit "Avoid naming files with 'secret' or 'password'. It signals sensitive content.").

Definition rule_log_file : rule :=
  Rule (fun name => endsWith name (lit ".log"))
    Logging Low (lit "Debug log file detected: ")
    (lit "Logs may leak sensitive data. Avoid committing them.").

Definition filename_rules : list rule :=
  [rule_env_file; rule_private_key_file; rule_config_file;
   rule_secret_name; rule_log_file].

Definition rule_aws_key : rule :=
  Rule (fun text => jsmatch text re_aws_key)
    Secrets Critical (lit "AWS Access Key found in ")
    (lit "Rotate AWS keys and use IAM roles instead of hardcoding.").

Definition rule_aws_secret : rule :=
  Rule (fun text => includes text (lit "AWS_SECRET_KEY"))
    Secrets Critical (lit "AWS secret key reference in ")
    (lit "Remove AWS secrets from code. Use environment variables or secret managers.").

Definition rule_password : rule :=
  Rule (fun text => jsmatch text re_password)
    Secrets Critical (lit "Hardcoded password found in ")
    (lit "Never hardcode passwords. Use env vars or secure vaults.").

Definition rule_private_key : rule :=
  Rule (fun text => includes text (lit "BEGIN PRIVATE KEY"))
    Secrets Critical (lit "Private key content found in ")
    (lit "Remove private keys from source code. Store them securely.").

Definition rule_api_key : rule :=
  Rule (fun text => jsmatch text re_api_key)
    Secrets Critical (lit "API key found in ")
    (lit "Rotate API keys and store them outside code.").

Definition rule_stripe : rule :=
  Rule (fun text => jsmatch text re_stripe)
    Secrets Critical (lit "Stripe live secret key found in ")
    (lit "Use test keys in dev. Never commit live keys.").

Definition rule_mongodb : rule :=
  Rule (fun text => jsmatch text re_mongodb)
    Secrets High (lit "MongoDB connection string found in ")
    (lit "Move DB connection strings to env vars.").

Definition rule_postgres : rule :=
  Rule (fun text => jsmatch text re_postgres)
    Secrets High (lit "Postgres connection string found in ")
    (lit "Store DB credentials securely outside code.").

Definition rule_jwt : rule :=
  Rule (fun text => jsmatch text re_jwt)
    Secrets High (lit "JWT token found in ")
    (lit "Never commit JWTs. Generate them dynamically.").

Definition rule_weak_hash : rule :=
  Rule (fun text => jsmatch text re_weak_hash)
    Crypto High (lit "Weak crypto algorithm (MD5/SHA1) used in ")
    (lit "Use bcrypt, Argon2, or SHA256+salt for secure hashing.").

Definition rule_sha256 : rule :=
  Rule (fun text => jsmatch text re_sha256)
    Crypto Medium (lit "Plain SHA256 used for password hashing in ")
    (lit "Use adaptive algorithms like bcrypt or Argon2 for password storage.").

Definition rule_cookie_httponly : rule :=
  Rule (fun text => jsmatch text re_cookie && negb (includes text (lit "HttpOnly")))
    Cookies High (lit "Cookie set without HttpOnly flag in ")
    (lit "Add { httpOnly: true } to cookies to prevent XSS attacks.").

Definition rule_cookie_secure : rule :=
  Rule (fun text => jsmatch text re_cookie && negb (includes text (lit "Secure")))
    Cookies High (lit "Cookie set without Secure flag in ")
    (lit "Add { secure: true } to cookies to enforce HTTPS.").

Definition rule_default_cred : rule :=
  Rule (fun text => jsmatch text re_default_cred)
    Credentials Critical (lit "Default credential found in ")
    (lit "Remove default creds. Enforce strong unique passwords.").

Definition rule_logging : rule :=
  Rule (fun text => jsmatch text re_log_password || jsmatch text re_log_token)
    Logging Medium (lit "Sensitive data logged in ")
    (lit "Avoid logging passwords or tokens. Use masked logs.").

Definition rule_s3 : rule :=
  Rule (fun text => jsmatch text re_s3 && negb (includes text (lit "private")))
    Cloud High (lit "Potential public S3 bucket reference in ")
    (lit "Ensure S3 buckets are private and access‑controlled.").

Definition rule_stack_trace : rule :=
  Rule (fun text => jsmatch text re_error && jsmatch text re_stack_frame)
    Errors Medium (lit "Stack trace exposure risk in ")
    (lit "Disable stack traces in production. Use generic error messages.").

Definition content_rules : list rule :=
  [rule_aws_key; rule_aws_secret; rule_password; rule_private_key;
   rule_api_key; rule_stripe; rule_mongodb; rule_postgres; rule_jwt;
   rule_weak_hash; rule_sha256; rule_cookie_httponly;
   rule_cookie_secure; rule_default_cred; rule_logging; rule_s3;
   rule_stack_trace].

(** The findings of the rules of [rules] that [x] triggers, in the
    order of [rules]. *)
Definition triggered_findings (rules : list rule) (filePath x : jsstring)
  : list issue :=
  map (finding filePath) (filter (fun r => triggered r x) rules).

(** The file scanner of the specification: the triggered file-name
    rules, then the triggered content rules when there is a text. *)
Definition spec_scanFile (filePath : jsstring) (text : option jsstring)
  : list issue :=
  triggered_findings filename_rules filePath
                     (toLowerCase (Path.basename filePath)) ++
  match text with
  | Some content => triggered_findings content_rules filePath content
  | None => []
  end.

(** The tree without what lies below the directories the traversal
    skips: what is left is every file that can contribute. *)
Fixpoint prune (currentPath : jsstring) (n : node) : node :=
  match n with
  | Dir files =>
      if array_includes excluded (Path.basename currentPath) then Dir []
      else Dir (map (fun entry => let '(file, child) := entry in
                       (file, prune (Path.join currentPath file) child))
                    files)
  | DirNoList =>
      if array_includes excluded (Path.basename currentPath) then Dir []
      else DirNoList
  | _ => n
  end.

(** The regular files that the traversal reaches from [currentPath],
    each with its path, in the order of the listings. *)
Fixpoint files_of (currentPath : jsstring) (n : node)
  : list (jsstring * read_result) :=
  match n with
  | File read => [(currentPath, read)]
  | Dir files =>
      if array_includes excluded (Path.basename currentPath) then []
      else flat_map (fun entry => let '(file, child) := entry in
                       files_of (Path.join currentPath file) child)
                    files
  | _ => []
  end.

(** Every [readdirSync] below [n] succeeds. *)
Fixpoint listable (n : node) : bool :=
  match n with
  | Dir files => forallb (fun entry => listable (snd entry)) files
  | DirNoList => false
  | _ => true
  end.

(** A name that [readdirSync] can return: not empty, no slash, and
    neither [.] nor [..]. *)
Definition entry_name (file : jsstring) : bool :=
  negb (jseq file []) && negb (existsb Path.is_slash file) &&
  negb (jseq file [Path.DOT]) && negb (jseq file Path.dotdot).

(* ================================================================== *)
(** * The scan archive: [GET /scans] *)

Section Archive.

(** [scannedAt] is stored as it was posted; [getTime] is the time
    value of [new Date(scannedAt)], in milliseconds, [None] for an
    invalid date (NaN). *)
Variable stamp : Type.
Variable getTime : stamp -> option Z.

Record scan := Scan {
  issues : list issue;
  scannedAt : stamp }.

Record repo := Repo {
  repoName : jsstring;
  scans : list scan }.

Record archived := Archived {
  a_repoName : jsstring;
  fileIssues : list issue;
  a_scannedAt : stamp }.

(** The two nested loops that fill [allScans]. *)
Definition collect (repos : list repo) : list archived :=
  fold_left (fun allScans r =>
    fold_left (fun allScans s =>
      allScans ++ [Archived (repoName r) (issues s) (scannedAt s)])
      (scans r) allScans)
    repos [].

(** [(a, b) => new Date(b.scannedAt) - new Date(a.scannedAt)], as
    [Array.prototype.sort] reads it: NaN counts as [+0]. *)
Definition compareFn (a b : archived) : Z :=
  match getTime (a_scannedAt b), getTime (a_scannedAt a) with
  | Some tb, Some ta => (tb - ta)%Z
  | _, _ => 0%Z
  end.

(** [Array.prototype.sort]: a stable sort.  With a consistent
    comparator all stable sorts return the same array; insertion is
    the one modelled. *)
Fixpoint insert (x : archived) (l : list archived) : list archived :=
  match l with
  | [] => [x]
  | y :: l' =>
      if (compareFn x y <=? 0)%Z then x :: l else y :: insert x l'
  end.

Definition sort (l : list archived) : list archived :=
  fold_right insert [] l.

(** The body of the handler: what [res.json] is given. *)
Definition get_scans (repos : list repo) : list archived :=
  sort (collect repos).

(** The flattened list of all recorded scans. *)
Definition flattened (repos : list repo) : list archived :=
  flat_map (fun r =>
    map (fun s => Archived (repoName r) (issues s) (scannedAt s)) (scans r))
    repos.

(** [a] may stand before [b] in an archive that shows the newest
    first. *)
Definition not_older (a b : archived) : Prop :=
  forall ta tb, getTime (a_scannedAt a) = Some ta ->
                getTime (a_scannedAt b) = Some tb -> (tb <= ta)%Z.

Definition newest_first (l : list archived) : Prop :=
  StronglySorted not_older l.

(** The scan has a valid date. *)
Definition valid (a : archived) : Prop :=
  getTime (a_scannedAt a) <> None.

Definition dated (r : repo) : Prop :=
  Forall (fun s => getTime (scannedAt s) <> None) (scans r).

End Archive.

Arguments Scan {stamp}.
Arguments Repo {stamp}.
Arguments Archived {stamp}.
Arguments issues {stamp}.
Arguments scannedAt {stamp}.
Arguments repoName {stamp}.
Arguments scans {stamp}.
Arguments a_repoName {stamp}.
Arguments fileIssues {stamp}.
Arguments a_scannedAt {stamp}.
Arguments collect {stamp}.
Arguments flattened {stamp}.
Arguments compareFn {stamp}.
Arguments insert {stamp}.
Arguments sort {stamp}.
Arguments get_scans {stamp}.
Arguments not_older {stamp}.
Arguments newest_first {stamp}.
Arguments dated {stamp}.
Arguments valid {stamp}.

(* ================================================================== *)
(** * Auxiliary notions for the statements *)

(** [statSync(p).isDirectory()] *)
Definition isDirectory (n : node) : bool :=
  match n with
  | Dir _ | DirNoList => true
  | _ => false
  end.

Definition is_cookies (f : issue) : bool :=
  match category f with
  | Cookies => true
  | _ => false
  end.

(** [s] starts with [l] up to case; what follows [l] in [s]. *)
Fixpoint strip (i : bool) (l s : jsstring) {struct l} : option jsstring :=
  match l, s with
  | [], _ => Some s
  | c :: l', x :: s' =>
      if atom_match i (Chr c) x then strip i l' s' else None
  | _ :: _, [] => None
  end.

(** A list of strings without a repetition. *)
Fixpoint distinct (l : list jsstring) : bool :=
  match l with
  | [] => true
  | x :: l' => negb (existsb (jseq x) l') && distinct l'
  end.

(** A statement that only appends [out] to the array. *)
Definition appends (s : stmt) (out : list issue) : Prop :=
  forall issues, s issues = issues ++ out.

(** A path that ends where the name of a directory entry can follow:
    empty, or ending in a slash. *)
Definition dirname_like (pre : jsstring) : Prop :=
  pre = [] \/ exists pre', pre = pre' ++ [Path.SLASH].

(** The rules whose findings are in category Cookies. *)
Definition cookies_rule (r : rule) : bool :=
  match r_category r with
  | Cookies => true
  | _ => false
  end.

(** The whole catalog, file-name rules first. *)
Definition all_rules : list rule := filename_rules ++ content_rules.

(** The text [password = "hunter2"], quotes included. *)
Definition quoted_password : jsstring :=
  lit "password = " ++ DQUOTE :: lit "hunter2" ++ [DQUOTE].

(** The bytes of a string of the source text. *)
Definition bytes (s : string) : list byte := list_byte_of_string s.
Arguments bytes s%_string.

(** The content rules whose predicate only asks for something to be
    present in the text. *)
Definition positive_rules : list rule :=
  [rule_aws_key; rule_aws_secret; rule_password; rule_private_key;
   rule_api_key; rule_stripe; rule_mongodb; rule_postgres; rule_jwt;
   rule_weak_hash; rule_sha256; rule_default_cred; rule_logging;
   rule_stack_trace].

(** The content rules made of patterns with the [i] flag only. *)
Definition case_blind_rules : list rule :=
  [rule_password; rule_api_key; rule_mongodb; rule_postgres; rule_weak_hash;
   rule_sha256; rule_default_cred; rule_logging].

(** ASCII upper-casing of a text. *)
Definition upcase (s : jsstring) : jsstring := map ascii_upper s.

(* ================================================================== *)
(** * The report service: [POST /report], [GET /stats], [GET /repos]

    The data file holds the repositories and two counters.  A handler
    loads it, works on the loaded object and writes it back; a handler
    that throws writes nothing. *)

(** The repositories as [GET /scans] reads them: a name and the scans. *)
Definition repo_view (stamp : Type) : Type := repo stamp.

Definition view {stamp : Type} (name : jsstring) (ss : list (scan stamp))
  : repo_view stamp :=
  Repo name ss.

(** The scan was recorded at time [t]. *)
Definition at_time {stamp : Type} (getTime : stamp -> option Z) (t : Z)
    (a : archived stamp) : bool :=
  match getTime (a_scannedAt a) with
  | Some t' => (t' =? t)%Z
  | None => false
  end.

Module Api.

Section Server.

Variable stamp : Type.

(** An entry of [data.repos]. *)
Record repo := Repo {
  repoName : jsstring;
  sourceType : jsstring;
  sourceUrl : option jsstring;          (* a string or [null] *)
  scans : list (scan stamp);
  verified : bool }.

Record stats := Stats {
  totalIssuesDetected : Z;
  totalScans : Z }.

Record data := Data {
  repos : list repo;
  the_stats : stats }.

(** The body of a report.  [req_issues] is [None] when the body has no
    [issues] (undefined or null), and the array otherwise. *)
Record request := Request {
  req_repoName : jsstring;
  req_sourceType : jsstring;
  req_sourceUrl : option jsstring;
  req_issues : option (list issue);
  req_scannedAt : stamp }.

(** [loadData()], on the data file if there is one. *)
Definition loadData (file : option data) : data :=
  match file with
  | None => Data [] (Stats 0 0)
  | Some d => d
  end.

(** [r => r.repoName === repoName] *)
Definition named (repoName0 : jsstring) (r : repo) : bool :=
  jseq (repoName r) repoName0.

(** [repo.scans.push(s)], where [repo] is the object that
    [data.repos.find] returned: the first entry with that name is the
    one that changes. *)
Fixpoint push_scan (name : jsstring) (s : scan stamp) (rs : list repo)
  : list repo :=
  match rs with
  | [] => []
  | r :: rs' =>
      if named name r
      then Repo (repoName r) (sourceType r) (sourceUrl r)
                (scans r ++ [s]) (verified r) :: rs'
      else r :: push_scan name s rs'
  end.

(** What [res.json] is given. *)
Record response := Response {
  res_repo : option repo;
  res_stats : stats }.

(** The handler of [POST /report]: what [saveData] writes and what is
    answered, or [None] when the handler throws before it saves. *)
Definition post_report (file : option data) (req : request)
  : option (data * response) :=
  let data := loadData file in
  let known := existsb (named (req_repoName req)) (repos data) in
  (* if (!repo) { repo = {...}; data.repos.push(repo); totalScans++ } *)
  let repos1 :=
    if known then repos data
    else repos data ++ [Repo (req_repoName req) (req_sourceType req)
                             (req_sourceUrl req) [] true] in
  let totalScans1 :=
    if known then totalScans (the_stats data)
    else (totalScans (the_stats data) + 1)%Z in
  match req_issues req with
  | None => None                       (* issues.length throws *)
  | Some issues =>
      (* repo.scans.push({ issues, scannedAt }) *)
      let repos2 :=
        push_scan (req_repoName req) (Scan issues (req_scannedAt req)) repos1 in
      let stats2 :=
        Stats (totalIssuesDetected (the_stats data) + Z.of_nat (List.length issues))
              totalScans1 in
      Some (Data repos2 stats2,
            Response (find (named (req_repoName req)) repos2) stats2)
  end.

(** The data file after a report. *)
Definition after_report (file : option data) (req : request) : option data :=
  match post_report file req with
  | Some (d, _) => Some d
  | None => file
  end.

(** The data file after a run of reports, from no file at all. *)
Definition after_reports (reqs : list request) : option data :=
  fold_left after_report reqs None.

(** [GET /stats] *)
Definition get_stats (file : option data) : stats :=
  the_stats (loadData file).

(** The entry as [GET /scans] reads it. *)
Definition archive_repo (r : repo) : repo_view stamp :=
  view (repoName r) (scans r).

(** [GET /scans] *)
Definition get_archive (getTime : stamp -> option Z) (file : option data)
  : list (archived stamp) :=
  get_scans getTime (map archive_repo (repos (loadData file))).

(** The identity of an entry: everything but its scans. *)
Definition ident (r : repo) : jsstring * jsstring * option jsstring * bool :=
  (repoName r, sourceType r, sourceUrl r, verified r).

(** All the findings on record. *)
Definition issues_of (rs : list repo) : list issue :=
  flat_map (fun r => flat_map (fun s => issues s) (scans r)) rs.

Definition issues_on_record (d : data) : Z :=
  Z.of_nat (List.length (issues_of (repos d))).

(** What every data file written by the service satisfies. *)
Definition consistent (d : data) : Prop :=
  totalScans (the_stats d) = Z.of_nat (List.length (repos d)) /\
  totalIssuesDetected (the_stats d) = issues_on_record d /\
  NoDup (map repoName (repos d)) /\
  Forall (fun r => scans r <> [] /\ verified r = true) (repos d).

(** The reports that carry an array of issues. *)
Definition accepted (req : request) : bool :=
  match req_issues req with
  | Some _ => true
  | None => false
  end.

End Server.

End Api.

Arguments Api.Repo {stamp}.
Arguments Api.repoName {stamp}.
Arguments Api.sourceType {stamp}.
Arguments Api.sourceUrl {stamp}.
Arguments Api.scans {stamp}.
Arguments Api.verified {stamp}.
Arguments Api.Data {stamp}.
Arguments Api.repos {stamp}.
Arguments Api.the_stats {stamp}.
Arguments Api.Request {stamp}.
Arguments Api.req_repoName {stamp}.
Arguments Api.req_sourceType {stamp}.
Arguments Api.req_sourceUrl {stamp}.
Arguments Api.req_issues {stamp}.
Arguments Api.req_scannedAt {stamp}.
Arguments Api.Response {stamp}.
Arguments Api.res_repo {stamp}.
Arguments Api.res_stats {stamp}.
Arguments Api.loadData {stamp}.
Arguments Api.named {stamp}.
Arguments Api.push_scan {stamp}.
Arguments Api.post_report {stamp}.
Arguments Api.after_report {stamp}.
Arguments Api.after_reports {stamp}.
Arguments Api.get_stats {stamp}.
Arguments Api.archive_repo {stamp}.
Arguments Api.get_archive {stamp}.
Arguments Api.issues_on_record {stamp}.
Arguments Api.ident {stamp}.
Arguments Api.issues_of {stamp}.
Arguments Api.consistent {stamp}.
Arguments Api.accepted {stamp}.

(* ================================================================== *)
(** * Strings: what the methods compute *)

Lemma jseq_spec (s t : jsstring) : jseq s t = true <-> s = t.
Proof.
  revert t; induction s as [|a s IH]; intros [|b t]; simpl;
    try (split; [discriminate | discriminate]); try tauto.
  rewrite andb_true_iff, N.eqb_eq, IH.
  split; [intros [-> ->]; reflexivity | intros [= -> ->]; auto].
Qed.

Lemma jseq_refl (s : jsstring) : jseq s s = true.
Proof. apply jseq_spec; reflexivity. Qed.

Lemma jseq_false (s t : jsstring) : jseq s t = false <-> s <> t.
Proof.
  rewrite <- jseq_spec. destruct (jseq s t); split; congruence.
Qed.

Lemma startsWith_spec (s t : jsstring) :
  startsWith s t = true <-> exists rest, s = t ++ rest.
Proof.
  revert s; induction t as [|b t IH]; intros s; simpl.
  - split; [exists s; reflexivity | reflexivity].
  - destruct s as [|a s].
    + split; [discriminate | intros [rest H]; discriminate].
    + rewrite andb_true_iff, N.eqb_eq, IH. split.
      * intros [-> [rest ->]]. exists rest; reflexivity.
      * intros [rest [= -> ->]]. split; [reflexivity | exists rest; reflexivity].
Qed.

Lemma includes_spec (s t : jsstring) :
  includes s t = true <-> exists pre post, s = pre ++ t ++ post.
Proof.
  induction s as [|a s IH]; simpl.
  - rewrite orb_false_r, startsWith_spec. split.
    + intros [rest H]. exists [], rest; exact H.
    + intros [pre [post H]]. destruct pre; simpl in H.
      * exists post; exact H.
      * discriminate.
  - rewrite orb_true_iff, startsWith_spec, IH. split.
    + intros [[rest H] | [pre [post H]]].
      * exists [], rest; exact H.
      * exists (a :: pre), post; simpl; congruence.
    + intros [[|b pre] [post H]]; simpl in H.
      * left; exists post; exact H.
      * right. injection H as _ H. exists pre, post; exact H.
Qed.

Lemma includes_app (pre t post : jsstring) : includes (pre ++ t ++ post) t = true.
Proof. apply includes_spec. exists pre, post; reflexivity. Qed.

Lemma endsWith_spec (s t : jsstring) :
  endsWith s t = true <-> exists pre, s = pre ++ t.
Proof.
  unfold endsWith. rewrite startsWith_spec. split.
  - intros [rest H]. exists (rev rest).
    rewrite <- (rev_involutive s), H, rev_app_distr, rev_involutive.
    reflexivity.
  - intros [pre ->]. exists (rev pre). apply rev_app_distr.
Qed.

(* ================================================================== *)
(** * Paths: the base name of a directory entry *)

Module PathFacts.
Import Path.

Lemma split_nonempty (p : jsstring) : split p <> [].
Proof.
  destruct p as [|c p]; cbn [split]; [discriminate|].
  destruct (is_slash c); [discriminate|].
  destruct (split p); discriminate.
Qed.

Lemma split_noslash (f : jsstring) :
  existsb is_slash f = false -> split f = [f].
Proof.
  induction f as [|c f IH]; cbn [existsb split]; [reflexivity|].
  intros H. apply orb_false_iff in H as [Hc Hf].
  rewrite Hc, (IH Hf). reflexivity.
Qed.

Lemma split_app_entry (p f : jsstring) :
  existsb is_slash f = false ->
  split (p ++ SLASH :: f) = split p ++ [f].
Proof.
  intros Hf. induction p as [|c p IH].
  - cbn [app split]. unfold is_slash at 1. rewrite N.eqb_refl.
    rewrite (split_noslash f Hf). reflexivity.
  - cbn [app split]. rewrite IH.
    destruct (is_slash c); [reflexivity|].
    destruct (split p) as [|seg segs] eqn:E; [|reflexivity].
    exfalso. exact (split_nonempty p E).
Qed.

Lemma normalize_step_entry (allow : bool) (res : list jsstring) (f : jsstring) :
  entry_name f = true -> normalize_step allow res f = f :: res.
Proof.
  unfold entry_name, normalize_step. intros H.
  repeat (apply andb_true_iff in H as [H ?]).
  repeat match goal with
         | E : negb _ = true |- _ => apply negb_true_iff in E
         end.
  rewrite H. 
  match goal with E : jseq f [DOT] = false |- _ => rewrite E end.
  match goal with E : jseq f dotdot = false |- _ => rewrite E end.
  reflexivity.
Qed.

Lemma unsplit_snoc (segs : list jsstring) (f : jsstring) :
  unsplit (segs ++ [f]) =
  match segs with
  | [] => f
  | _ => unsplit segs ++ SLASH :: f
  end.
Proof.
  induction segs as [|seg segs IH]; [reflexivity|].
  cbn [app]. destruct segs as [|seg' segs].
  - reflexivity.
  - cbn [app unsplit] in *. rewrite IH. rewrite <- app_assoc. reflexivity.
Qed.

Lemma unsplit_entry (segs : list jsstring) (f : jsstring) :
  exists pre, unsplit (segs ++ [f]) = pre ++ f /\ dirname_like pre.
Proof.
  rewrite unsplit_snoc. destruct segs as [|seg segs].
  - exists []. split; [reflexivity | left; reflexivity].
  - exists (unsplit (seg :: segs) ++ [SLASH]). split.
    + rewrite <- app_assoc. reflexivity.
    + right. eauto.
Qed.

Lemma last_entry (p f : jsstring) (d : char16) :
  f <> [] -> last (p ++ f) d = last f d.
Proof.
  intros Hf. induction p as [|c p IH]; [reflexivity|].
  cbn [app]. rewrite <- IH. cbn [last].
  destruct (p ++ f) eqn:E; [|reflexivity].
  apply app_eq_nil in E as [_ E]. contradiction.
Qed.

Lemma last_noslash (f : jsstring) :
  f <> [] -> existsb is_slash f = false -> is_slash (last f 0) = false.
Proof.
  induction f as [|c f IH]; [contradiction|].
  intros _ H. cbn [existsb] in H. apply orb_false_iff in H as [Hc Hf].
  destruct f as [|c' f]; [exact Hc|].
  apply IH; [discriminate | exact Hf].
Qed.

Lemma entry_name_spec (f : jsstring) :
  entry_name f = true ->
  f <> [] /\ existsb is_slash f = false.
Proof.
  unfold entry_name. intros H.
  repeat (apply andb_true_iff in H as [H ?]).
  repeat match goal with
         | E : negb _ = true |- _ => apply negb_true_iff in E
         end.
  split; [apply jseq_false; exact H | assumption].
Qed.

Lemma normalize_unfold (p : jsstring) (c : char16) (p' : jsstring) :
  p = c :: p' ->
  normalize p =
  match unsplit (normalizeString p (negb (is_slash c))) with
  | [] => if is_slash c then [SLASH]
          else if is_slash (last p 0) then [DOT; SLASH] else [DOT]
  | _ => (if is_slash c then [SLASH] else []) ++
         unsplit (normalizeString p (negb (is_slash c))) ++
         (if is_slash (last p 0) then [SLASH] else [])
  end.
Proof. intros ->. reflexivity. Qed.

Lemma normalize_last_segment (p f : jsstring) (segs : list jsstring) :
  entry_name f = true ->
  split p = segs ++ [f] ->
  is_slash (last p 0) = false ->
  exists pre, normalize p = pre ++ f /\ dirname_like pre.
Proof.
  intros Hf Hs Hl. destruct (entry_name_spec f Hf) as [Hne _].
  destruct p as [|c p'] eqn:Ep.
  { cbn [split] in Hs. destruct segs as [|? [|? ?]]; try discriminate Hs.
    injection Hs as <-. contradiction. }
  rewrite <- Ep in *. rewrite (normalize_unfold p c p' Ep), Hl.
  unfold normalizeString. rewrite Hs, fold_left_app. cbn [fold_left].
  rewrite normalize_step_entry by exact Hf. cbn [rev].
  destruct (unsplit_entry
              (rev (fold_left (normalize_step (negb (is_slash c))) segs [])) f)
    as (pre0 & -> & Hpre).
  destruct (pre0 ++ f) eqn:E.
  { apply app_eq_nil in E as [_ E]. contradiction. }
  rewrite <- E, app_nil_r, app_assoc. eexists. split; [reflexivity|].
  destruct Hpre as [-> | (pre' & ->)].
  - destruct (is_slash c); [right; exists []; reflexivity | left; reflexivity].
  - right. exists ((if is_slash c then [SLASH] else []) ++ pre').
    apply app_assoc.
Qed.

Lemma takeWhile_app {A} (g : A -> bool) (l1 l2 : list A) :
  forallb g l1 = true ->
  takeWhile g (l1 ++ l2) = l1 ++ takeWhile g l2.
Proof.
  induction l1 as [|x l1 IH]; cbn [forallb app takeWhile]; [reflexivity|].
  intros H. apply andb_true_iff in H as [Hx Hl]. rewrite Hx, (IH Hl).
  reflexivity.
Qed.

Lemma basename_entry (pre f : jsstring) :
  entry_name f = true -> dirname_like pre -> basename (pre ++ f) = f.
Proof.
  intros Hf Hpre. destruct (entry_name_spec f Hf) as [Hne Hns].
  unfold basename. rewrite rev_app_distr.
  assert (Hr : forallb (fun c => negb (is_slash c)) (rev f) = true).
  { apply forallb_forall. intros c Hc. apply in_rev in Hc.
    apply negb_true_iff. destruct (is_slash c) eqn:E; [|reflexivity].
    assert (X : existsb is_slash f = true)
      by (apply existsb_exists; eauto).
    congruence. }
  assert (Hd : dropWhile is_slash (rev f ++ rev pre) = rev f ++ rev pre).
  { destruct (rev f) as [|c r] eqn:E.
    - apply (f_equal (@rev _)) in E. rewrite rev_involutive in E.
      contradiction.
    - cbn [forallb] in Hr. apply andb_true_iff in Hr as [Hc _].
      apply negb_true_iff in Hc. cbn [app dropWhile]. rewrite Hc.
      reflexivity. }
  rewrite Hd, takeWhile_app by exact Hr.
  assert (Ht : takeWhile (fun c => negb (is_slash c)) (rev pre) = []).
  { destruct Hpre as [-> | (pre' & ->)]; [reflexivity|].
    rewrite rev_app_distr. cbn [rev app takeWhile].
    unfold is_slash. rewrite N.eqb_refl. reflexivity. }
  rewrite Ht, app_nil_r. apply rev_involutive.
Qed.

(** The base name of the path of a directory entry is the name of the
    entry. *)
Lemma basename_join (currentPath file : jsstring) :
  entry_name file = true ->
  basename (join currentPath file) = file.
Proof.
  intros Hf. destruct (entry_name_spec file Hf) as [Hne Hns].
  assert (N : exists pre, join currentPath file = pre ++ file /\
                          dirname_like pre).
  { unfold join. destruct currentPath as [|c p]; destruct file as [|x f] eqn:Ef;
      try contradiction; rewrite <- Ef in *.
    - apply (normalize_last_segment file file []); auto.
      + apply split_noslash; exact Hns.
      + apply last_noslash; assumption.
    - apply (normalize_last_segment _ file (split (c :: p))); auto.
      + apply split_app_entry; exact Hns.
      + change ((c :: p) ++ SLASH :: file) with ((c :: p) ++ [SLASH] ++ file).
        rewrite app_assoc, last_entry by exact Hne.
        apply last_noslash; assumption. }
  destruct N as (pre & -> & Hpre). apply basename_entry; assumption.
Qed.

End PathFacts.

(* ================================================================== *)
(** * Regular expressions: the matcher decides the language *)

Section Matcher.

Variable i : bool.

Lemma nullable_spec (r : regex) : nullable r = true <-> matches i r [].
Proof.
  induction r; simpl.
  - split; [discriminate | inversion 1].
  - split; [constructor | reflexivity].
  - split; [discriminate | inversion 1].
  - rewrite andb_true_iff, IHr1, IHr2. split.
    + intros [H1 H2]. apply (m_seq i _ _ [] [] H1 H2).
    + intros H. inversion H; subst.
      match goal with
      | E : _ ++ _ = [] |- _ => apply app_eq_nil in E as [-> ->]
      end. auto.
  - rewrite orb_true_iff, IHr1, IHr2. split.
    + intros [H | H]; [apply m_alt_l | apply m_alt_r]; exact H.
    + inversion 1; subst; auto.
  - split; [constructor | reflexivity].
Qed.

Lemma matches_void (s : jsstring) : ~ matches i Void s.
Proof. inversion 1. Qed.

Lemma seq_inv0 (r1 r2 : regex) (s : jsstring) :
  matches i (Seq r1 r2) s ->
  exists s1 s2, s = s1 ++ s2 /\ matches i r1 s1 /\ matches i r2 s2.
Proof. inversion 1; subst. eauto. Qed.

Lemma seq_spec (r1 r2 : regex) (s : jsstring) :
  matches i (seq_ r1 r2) s <-> matches i (Seq r1 r2) s.
Proof.
  assert (V1 : forall r, matches i (Seq Void r) s <-> matches i Void s).
  { intros r; split; inversion 1; subst.
    exfalso; eapply matches_void; eauto. }
  assert (V2 : forall r, matches i (Seq r Void) s <-> matches i Void s).
  { intros r; split; inversion 1; subst.
    exfalso; eapply matches_void; eauto. }
  assert (E : forall r, matches i (Seq Eps r) s <-> matches i r s).
  { intros r; split.
    - intros H. apply seq_inv0 in H as (s1 & s2 & -> & H1 & H2).
      inversion H1; subst. exact H2.
    - intros H. apply (m_seq i Eps r [] s); [constructor | exact H]. }
  destruct r1; destruct r2; simpl;
    rewrite ?V1, ?V2, ?E; reflexivity.
Qed.

Lemma alt_spec (r1 r2 : regex) (s : jsstring) :
  matches i (alt_ r1 r2) s <-> matches i (Alt r1 r2) s.
Proof.
  assert (V1 : forall r, matches i (Alt Void r) s <-> matches i r s).
  { intros r; split.
    - inversion 1; subst; [exfalso; eapply matches_void; eauto | assumption].
    - apply m_alt_r. }
  assert (V2 : forall r, matches i (Alt r Void) s <-> matches i r s).
  { intros r; split.
    - inversion 1; subst; [assumption | exfalso; eapply matches_void; eauto].
    - apply m_alt_l. }
  destruct r1; destruct r2; simpl; rewrite ?V1, ?V2; reflexivity.
Qed.

Lemma seq_inv (r1 r2 : regex) (s : jsstring) :
  matches i (Seq r1 r2) s <->
  exists s1 s2, s = s1 ++ s2 /\ matches i r1 s1 /\ matches i r2 s2.
Proof.
  split.
  - apply seq_inv0.
  - intros (s1 & s2 & -> & H1 & H2). constructor; assumption.
Qed.

Lemma alt_inv (r1 r2 : regex) (s : jsstring) :
  matches i (Alt r1 r2) s <-> matches i r1 s \/ matches i r2 s.
Proof.
  split.
  - inversion 1; subst; auto.
  - intros [H | H]; [apply m_alt_l | apply m_alt_r]; exact H.
Qed.

Lemma one_inv (a : atom) (s : jsstring) :
  matches i (One a) s <-> exists c, s = [c] /\ atom_match i a c = true.
Proof.
  split.
  - inversion 1; subst. eauto.
  - intros (c & -> & H). constructor; exact H.
Qed.

Lemma eps_inv (s : jsstring) : matches i Eps s <-> s = [].
Proof. split; [inversion 1; reflexivity | intros ->; constructor]. Qed.

(** A non-empty string of [r*] starts with a non-empty string of [r]. *)
Lemma star_cons (r : regex) (c : char16) (s : jsstring) :
  matches i (Star r) (c :: s) ->
  exists s1 s2, s = s1 ++ s2 /\ matches i r (c :: s1) /\ matches i (Star r) s2.
Proof.
  intros H. remember (Star r) as r' eqn:Er. remember (c :: s) as cs eqn:Es.
  revert Er Es.
  induction H as [| | | | | |r0 s1 s2 H1 _ H2 IH2]; try discriminate.
  intros [= ->] E. destruct s1 as [|c1 s1]; simpl in E.
  - apply IH2; [reflexivity | exact E].
  - injection E as -> <-. exists s1, s2. auto.
Qed.

Lemma deriv_spec (c : char16) (r : regex) (s : jsstring) :
  matches i (deriv i c r) s <-> matches i r (c :: s).
Proof.
  revert s; induction r; intros s; simpl.
  - split; inversion 1.
  - split; inversion 1.
  - destruct (atom_match i a c) eqn:Ea.
    + rewrite eps_inv, one_inv. split.
      * intros ->. eauto.
      * intros (c' & [= -> ->] & _). reflexivity.
    + rewrite one_inv. split; [inversion 1|].
      intros (c' & [= -> ->] & H). congruence.
  - assert (L : matches i (seq_ (deriv i c r1) r2) s <->
                exists s1 s2, s = s1 ++ s2 /\ matches i r1 (c :: s1) /\
                              matches i r2 s2).
    { rewrite seq_spec, seq_inv. split; intros (s1 & s2 & E & H1 & H2);
        exists s1, s2; repeat split; auto; apply IHr1; exact H1. }
    rewrite seq_inv.
    destruct (nullable r1) eqn:En.
    + rewrite alt_spec, alt_inv, L, IHr2. split.
      * intros [(s1 & s2 & -> & H1 & H2) | H].
        -- exists (c :: s1), s2. auto.
        -- exists [], (c :: s). repeat split; auto.
           apply nullable_spec; exact En.
      * intros ([|c1 s1] & s2 & E & H1 & H2); simpl in E.
        -- right. rewrite E. exact H2.
        -- injection E as <- ->. left. eauto.
    + rewrite L. split.
      * intros (s1 & s2 & -> & H1 & H2). exists (c :: s1), s2. auto.
      * intros ([|c1 s1] & s2 & E & H1 & H2); simpl in E.
        -- apply nullable_spec in H1. congruence.
        -- injection E as <- ->. eauto.
  - rewrite alt_spec, !alt_inv, IHr1, IHr2. reflexivity.
  - rewrite seq_spec, seq_inv. split.
    + intros (s1 & s2 & -> & H1 & H2).
      apply (m_star_app i r (c :: s1) s2); [apply IHr; exact H1 | exact H2].
    + intros H. apply star_cons in H as (s1 & s2 & -> & H1 & H2).
      exists s1, s2. repeat split; auto. apply IHr; exact H1.
Qed.

Lemma accepts_spec (r : regex) (s : jsstring) :
  accepts i r s = true <-> matches i r s.
Proof.
  revert r; induction s as [|c s IH]; intros r; simpl.
  - apply nullable_spec.
  - rewrite IH. apply deriv_spec.
Qed.

Lemma match_here_spec (r : regex) (s : jsstring) :
  match_here i r s = true <->
  exists m rest, s = m ++ rest /\ matches i r m.
Proof.
  revert r; induction s as [|c s IH]; intros r; simpl.
  - rewrite orb_false_r, nullable_spec. split.
    + intros H. exists [], []. auto.
    + intros (m & rest & E & H). symmetry in E.
      apply app_eq_nil in E as [-> _]. exact H.
  - rewrite orb_true_iff, nullable_spec, IH. split.
    + intros [H | (m & rest & -> & H)].
      * exists [], (c :: s). auto.
      * exists (c :: m), rest. split; [reflexivity | apply deriv_spec; exact H].
    + intros ([|c1 m] & rest & E & H); simpl in E.
      * left; exact H.
      * injection E as <- ->. right. exists m, rest.
        split; [reflexivity | apply deriv_spec; exact H].
Qed.

Lemma search_spec (r : regex) (s : jsstring) :
  search i r s = true <->
  exists pre m post, s = pre ++ m ++ post /\ matches i r m.
Proof.
  induction s as [|c s IH]; cbn [search].
  - rewrite orb_false_r, match_here_spec. split.
    + intros (m & rest & E & H). exists [], m, rest. auto.
    + intros ([|? ?] & m & post & E & H); simpl in E; [|discriminate].
      exists m, post. auto.
  - rewrite orb_true_iff, match_here_spec, IH. split.
    + intros [(m & rest & E & H) | (pre & m & post & -> & H)].
      * exists [], m, rest. auto.
      * exists (c :: pre), m, post. auto.
    + intros ([|c1 pre] & m & post & E & H); simpl in E.
      * left. exists m, post. auto.
      * injection E as <- ->. right. exists pre, m, post. auto.
Qed.

End Matcher.

(** [content.match(re)] is truthy exactly when a substring of [content]
    is in the language of [re]. *)
Lemma jsmatch_spec (content : jsstring) (re : RegExp) :
  jsmatch content re = true <->
  exists pre m post, content = pre ++ m ++ post /\
                     matches (ignoreCase re) (source re) m.
Proof. apply search_spec. Qed.

Lemma jsmatch_intro (re : RegExp) (pre m post : jsstring) :
  accepts (ignoreCase re) (source re) m = true ->
  jsmatch (pre ++ m ++ post) re = true.
Proof.
  intros H. apply jsmatch_spec. exists pre, m, post.
  split; [reflexivity | apply accepts_spec; exact H].
Qed.

(* ================================================================== *)
(** * [scanFile] against the catalog *)

Lemma appends_when (c : bool) (x : issue) :
  appends (when c x) (if c then [x] else []).
Proof.
  intros issues. unfold when, push. destruct c; [reflexivity|].
  symmetry; apply app_nil_r.
Qed.

Lemma appends_skip : appends skip [].
Proof. intros issues. symmetry; apply app_nil_r. Qed.

Lemma appends_then (s1 s2 : stmt) (o1 o2 : list issue) :
  appends s1 o1 -> appends s2 o2 -> appends (s1 ;; s2) (o1 ++ o2).
Proof.
  intros H1 H2 issues. unfold then_. rewrite H1, H2. symmetry; apply app_assoc.
Qed.

Lemma triggered_findings_cons (r : rule) (rs : list rule) (p x : jsstring) :
  triggered_findings (r :: rs) p x =
  (if triggered r x then [finding p r] else []) ++ triggered_findings rs p x.
Proof.
  unfold triggered_findings. simpl. destruct (triggered r x); reflexivity.
Qed.

Lemma triggered_findings_nil (p x : jsstring) : triggered_findings [] p x = [].
Proof. reflexivity. Qed.

Lemma appends_rule (c : bool) (s : stmt) (t : jsstring -> bool)
    (cat : Category) (sev : Severity) (text h : jsstring)
    (rs : list rule) (p x : jsstring) (out : list issue) :
  c = t x ->
  appends s (triggered_findings rs p x ++ out) ->
  appends (when c (Issue cat sev (text ++ p) h) ;; s)
          (triggered_findings (Rule t cat sev text h :: rs) p x ++ out).
Proof.
  intros -> H. rewrite triggered_findings_cons, <- app_assoc.
  apply appends_then; [apply appends_when | exact H].
Qed.

Lemma appends_rule_last (c : bool) (t : jsstring -> bool)
    (cat : Category) (sev : Severity) (text h : jsstring) (p x : jsstring) :
  c = t x ->
  appends (when c (Issue cat sev (text ++ p) h))
          (triggered_findings [Rule t cat sev text h] p x ++ []).
Proof.
  intros ->.
  rewrite triggered_findings_cons, triggered_findings_nil, !app_nil_r.
  apply appends_when.
Qed.

Ltac by_rules := repeat (apply appends_rule; [reflexivity |]).

Lemma content_checks_rules (filePath content : jsstring) :
  appends (content_checks filePath content)
          (triggered_findings content_rules filePath content ++ []).
Proof.
  unfold content_checks, content_rules, rule_aws_key, rule_aws_secret, rule_password, rule_private_key, rule_api_key, rule_stripe, rule_mongodb, rule_postgres, rule_jwt, rule_weak_hash, rule_sha256, rule_cookie_httponly, rule_cookie_secure, rule_default_cred, rule_logging, rule_s3, rule_stack_trace.
  by_rules.
  apply appends_rule_last; reflexivity.
Qed.

Lemma content_checks_catalog (filePath content : jsstring) :
  appends (content_checks filePath content)
          (triggered_findings content_rules filePath content).
Proof.
  intros issues. rewrite content_checks_rules. f_equal. apply app_nil_r.
Qed.

(** [scanFile] returns what the catalog prescribes. *)
Lemma scanFile_catalog (filePath : jsstring) (read : read_result) :
  scanFile filePath read =
  spec_scanFile filePath (option_map toString_utf8 read).
Proof.
  unfold scanFile, spec_scanFile.
  set (name := toLowerCase (Path.basename filePath)).
  match goal with
  | |- ?s [] = ?out => enough (A : appends s out) by (rewrite A; reflexivity)
  end.
  unfold filename_rules, rule_env_file, rule_private_key_file, rule_config_file, rule_secret_name, rule_log_file.
  by_rules.
  destruct read as [buf|].
  - exact (content_checks_catalog filePath (toString_utf8 buf)).
  - exact appends_skip.
Qed.

Lemma in_triggered_findings (rules : list rule) (p x : jsstring) (f : issue) :
  In f (triggered_findings rules p x) <->
  exists r, In r rules /\ triggered r x = true /\ f = finding p r.
Proof.
  unfold triggered_findings. rewrite in_map_iff. split.
  - intros (r & <- & H). apply filter_In in H as [H1 H2]. eauto.
  - intros (r & H1 & H2 & ->). exists r. split; [reflexivity|].
    apply filter_In. auto.
Qed.

(** The findings of [scanFile], rule by rule. *)
Lemma in_scanFile (filePath : jsstring) (read : read_result) (f : issue) :
  In f (scanFile filePath read) <->
  (exists r, In r filename_rules /\
             triggered r (toLowerCase (Path.basename filePath)) = true /\
             f = finding filePath r) \/
  (exists buf r, read = Some buf /\ In r content_rules /\
                 triggered r (toString_utf8 buf) = true /\
                 f = finding filePath r).
Proof.
  rewrite scanFile_catalog. unfold spec_scanFile.
  rewrite in_app_iff, in_triggered_findings.
  destruct read as [buf|]; cbn [option_map].
  - rewrite in_triggered_findings. split.
    + intros [H | (r & H)]; [left; exact H | right; exists buf, r; tauto].
    + intros [H | (buf' & r & [= <-] & H)];
        [left; exact H | right; exists r; exact H].
  - split.
    + intros [H | []]. left; exact H.
    + intros [H | (buf' & r & [=] & _)]. left; exact H.
Qed.

(** ** No hint is used by two rules *)

Lemma distinct_NoDup (l : list jsstring) : distinct l = true -> NoDup l.
Proof.
  induction l as [|x l IH]; simpl; [constructor|].
  rewrite andb_true_iff, negb_true_iff. intros [Hx Hl].
  constructor; [|apply IH; exact Hl].
  intros Hin. assert (E : existsb (jseq x) l = true).
  { apply existsb_exists. exists x. split; [exact Hin | apply jseq_refl]. }
  congruence.
Qed.

Lemma hints_distinct : NoDup (map r_hint all_rules).
Proof. apply distinct_NoDup. vm_compute. reflexivity. Qed.

Lemma NoDup_map_filter {A B} (g : A -> B) (f : A -> bool) (l : list A) :
  NoDup (map g l) -> NoDup (map g (filter f l)).
Proof.
  induction l as [|a l IH]; simpl; [auto|].
  inversion 1 as [|? ? Hn Hd]; subst.
  destruct (f a); simpl; [|auto].
  constructor; [|auto].
  intros Hin. apply Hn. apply in_map_iff in Hin as (y & E & Hy).
  apply filter_In in Hy as [Hy _]. apply in_map_iff. eauto.
Qed.

Lemma NoDup_map_filter_app {A B} (g : A -> B) (f1 f2 : A -> bool)
    (l1 l2 : list A) :
  NoDup (map g (l1 ++ l2)) -> NoDup (map g (filter f1 l1 ++ filter f2 l2)).
Proof.
  induction l1 as [|a l1 IH]; simpl.
  - apply NoDup_map_filter.
  - inversion 1 as [|? ? Hn Hd]; subst.
    destruct (f1 a); simpl; [|auto].
    constructor; [|auto].
    intros Hin. apply Hn. rewrite map_app, in_app_iff in *.
    destruct Hin as [Hin | Hin]; [left | right];
      apply in_map_iff in Hin as (y & E & Hy);
      apply filter_In in Hy as [Hy _]; apply in_map_iff; eauto.
Qed.

Lemma NoDup_of_map {A B} (g : A -> B) (l : list A) :
  NoDup (map g l) -> NoDup l.
Proof.
  induction l as [|a l IH]; simpl; [constructor|].
  inversion 1 as [|? ? Hn Hd]; subst. constructor; [|auto].
  intros Hin. apply Hn. apply in_map. exact Hin.
Qed.

Lemma scanFile_NoDup (filePath : jsstring) (read : read_result) :
  NoDup (scanFile filePath read).
Proof.
  rewrite scanFile_catalog. unfold spec_scanFile, triggered_findings.
  apply (NoDup_of_map hint).
  set (name := toLowerCase (Path.basename filePath)).
  assert (E : forall l, map hint (map (finding filePath) l) = map r_hint l).
  { intros l. rewrite map_map. reflexivity. }
  destruct read as [buf|]; cbn [option_map].
  - rewrite <- map_app, E. apply NoDup_map_filter_app. exact hints_distinct.
  - rewrite app_nil_r, E. apply NoDup_map_filter.
    pose proof hints_distinct as H. unfold all_rules in H.
    rewrite map_app in H. apply NoDup_app_remove_r in H. exact H.
Qed.

(* ================================================================== *)
(** * The file scanner *)

(** C2.  For every regular file, [scanFile] returns exactly the findings
    of the triggered file-name rules, in the order of the five rules of
    the catalog, followed by those of the triggered content rules, in the
    order of its seventeen content rules (none when the file cannot be
    read); and no finding occurs twice, so that a rule contributes at
    most one finding. *)
Theorem scanFile_catalog_order (filePath : jsstring) (read : read_result) :
  scanFile filePath read =
    triggered_findings filename_rules filePath
                       (toLowerCase (Path.basename filePath)) ++
    match read with
    | Some buf =>
        triggered_findings content_rules filePath (toString_utf8 buf)
    | None => []
    end
  /\ NoDup (scanFile filePath read)
  /\ List.length filename_rules = 5%nat
  /\ List.length content_rules = 17%nat.
Proof.
  split; [|split; [apply scanFile_NoDup | split; reflexivity]].
  rewrite scanFile_catalog. destruct read; reflexivity.
Qed.

Lemma NoDup_map_inj {A B} (g : A -> B) (l : list A) (x y : A) :
  NoDup (map g l) -> In x l -> In y l -> g x = g y -> x = y.
Proof.
  induction l as [|a l IH]; simpl; [tauto|].
  inversion 1 as [|? ? Hn Hd]; subst.
  intros [-> | Hx] [-> | Hy] E; auto.
  - exfalso. apply Hn. rewrite E. apply in_map. exact Hy.
  - exfalso. apply Hn. rewrite <- E. apply in_map. exact Hx.
Qed.

(** A rule of the catalog is known by its hint. *)
Lemma rule_of_hint (r r' : rule) :
  In r all_rules -> In r' all_rules -> r_hint r = r_hint r' -> r = r'.
Proof. apply NoDup_map_inj. exact hints_distinct. Qed.

Lemma filename_rule_in_catalog (r : rule) : In r filename_rules -> In r all_rules.
Proof. intros H. apply in_or_app. left; exact H. Qed.

Lemma content_rule_in_catalog (r : rule) : In r content_rules -> In r all_rules.
Proof. intros H. apply in_or_app. right; exact H. Qed.

Lemma scanFile_from_catalog (filePath : jsstring) (read : read_result)
    (f : issue) :
  In f (scanFile filePath read) ->
  exists r, In r all_rules /\ f = finding filePath r.
Proof.
  intros H. apply in_scanFile in H as [(r & Hr & _ & E) | (b & r & _ & Hr & _ & E)];
    exists r; split; auto using filename_rule_in_catalog, content_rule_in_catalog.
Qed.

(** C8.  Every finding of [scanFile], whether a file-name rule or a
    content rule produced it, has a message that contains the path of the
    scanned file, and takes its category, its severity and its hint from
    one rule of the catalog, the message being the text of that rule
    followed by the path. *)
Theorem finding_embeds_path (filePath : jsstring) (read : read_result)
    (f : issue) :
  In f (scanFile filePath read) ->
  includes (message f) filePath = true /\
  exists r, In r all_rules /\
            category f = r_category r /\ severity f = r_severity r /\
            hint f = r_hint r /\ message f = r_text r ++ filePath.
Proof.
  intros H. apply scanFile_from_catalog in H as (r & Hr & ->).
  split.
  - apply includes_spec. exists (r_text r), []. cbn [finding message].
    rewrite app_nil_r. reflexivity.
  - exists r. repeat split; auto.
Qed.

Lemma finding_embeds_path_witness :
  let f := finding (lit ".env") rule_env_file in
  includes (message f) (lit ".env") = true /\
  exists r, In r all_rules /\
            category f = r_category r /\ severity f = r_severity r /\
            hint f = r_hint r /\ message f = r_text r ++ lit ".env".
Proof.
  apply (finding_embeds_path (lit ".env") None).
  vm_compute. left. reflexivity.
Defined.

(** What [scanFile] returns for a file that cannot be read: the
    file-name findings, and nothing else. *)
Lemma scanFile_unreadable (filePath : jsstring) :
  scanFile filePath None =
  triggered_findings filename_rules filePath
                     (toLowerCase (Path.basename filePath)).
Proof.
  rewrite scanFile_catalog. unfold spec_scanFile. cbn [option_map].
  apply app_nil_r.
Qed.

(** C4.  A file whose bytes are not UTF-8 text: the byte FF, which no
    UTF-8 text contains, followed by [AWS_SECRET_KEY].  Reading it does
    not throw: the byte is decoded as U+FFFD and the content rules are
    run on the result, so that the scan reports a content finding. *)
Theorem binary_file_content_is_scanned :
  let buf := xff :: bytes "AWS_SECRET_KEY" in
  toString_utf8 buf = REPLACEMENT :: lit "AWS_SECRET_KEY" /\
  scanFile (lit "blob.bin") (Some buf) =
    [Issue Secrets Critical (lit "AWS secret key reference in blob.bin")
       (lit "Remove AWS secrets from code. Use environment variables or secret managers.")]
  /\ triggered_findings filename_rules (lit "blob.bin")
       (toLowerCase (Path.basename (lit "blob.bin"))) = [].
Proof. vm_compute. repeat split. Qed.

Lemma filter_triggered_findings (rules : list rule) (p x : jsstring) :
  filter is_cookies (triggered_findings rules p x) =
  triggered_findings (filter cookies_rule rules) p x.
Proof.
  induction rules as [|r rules IH]; [reflexivity|].
  rewrite triggered_findings_cons, filter_app, IH.
  assert (E : is_cookies (finding p r) = cookies_rule r) by reflexivity.
  destruct (triggered r x) eqn:Et; cbn [filter]; rewrite ?E;
    destruct (cookies_rule r);
    rewrite ?triggered_findings_cons, ?Et; reflexivity.
Qed.

Lemma cookies_rules_filename : filter cookies_rule filename_rules = [].
Proof. reflexivity. Qed.

Lemma cookies_rules_content :
  filter cookies_rule content_rules = [rule_cookie_httponly; rule_cookie_secure].
Proof. reflexivity. Qed.

Lemma cookies_findings (filePath : jsstring) (buf : list byte) :
  filter is_cookies (scanFile filePath (Some buf)) =
  triggered_findings [rule_cookie_httponly; rule_cookie_secure] filePath
                     (toString_utf8 buf).
Proof.
  rewrite scanFile_catalog. unfold spec_scanFile. cbn [option_map].
  rewrite filter_app, !filter_triggered_findings.
  rewrite cookies_rules_filename, cookies_rules_content. reflexivity.
Qed.

(** C5.  A file whose text has a cookie-setting call and does not
    contain [Secure]: if it contains [HttpOnly], the findings of
    category Cookies are exactly one, of severity High, that of the rule
    on the missing Secure flag (rule 13); if it does not contain
    [HttpOnly] either, they are the finding of rule 12 and then that of
    rule 13. *)
Theorem cookie_rules_independent (filePath : jsstring) (buf : list byte) :
  let content := toString_utf8 buf in
  let httponly_missing :=
    Issue Cookies High (lit "Cookie set without HttpOnly flag in " ++ filePath)
      (lit "Add { httpOnly: true } to cookies to prevent XSS attacks.") in
  let secure_missing :=
    Issue Cookies High (lit "Cookie set without Secure flag in " ++ filePath)
      (lit "Add { secure: true } to cookies to enforce HTTPS.") in
  jsmatch content re_cookie = true ->
  includes content (lit "Secure") = false ->
  (includes content (lit "HttpOnly") = true ->
   filter is_cookies (scanFile filePath (Some buf)) = [secure_missing]) /\
  (includes content (lit "HttpOnly") = false ->
   filter is_cookies (scanFile filePath (Some buf)) =
     [httponly_missing; secure_missing]).
Proof.
  intros content f12 f13 Hc Hs. rewrite cookies_findings.
  rewrite !triggered_findings_cons, triggered_findings_nil.
  unfold rule_cookie_httponly, rule_cookie_secure, finding.
  cbn [triggered r_category r_severity r_text r_hint].
  fold content. rewrite Hc, Hs.
  split; intros ->; reflexivity.
Qed.

Lemma cookie_rules_independent_witness :
  filter is_cookies
    (scanFile (lit "app.js") (Some (bytes "res.cookie('sid', v, { HttpOnly })")))
  = [Issue Cookies High (lit "Cookie set without Secure flag in app.js")
       (lit "Add { secure: true } to cookies to enforce HTTPS.")] /\
  filter is_cookies
    (scanFile (lit "app.js") (Some (bytes "res.cookie('sid', v)")))
  = [Issue Cookies High (lit "Cookie set without HttpOnly flag in app.js")
       (lit "Add { httpOnly: true } to cookies to prevent XSS attacks.");
     Issue Cookies High (lit "Cookie set without Secure flag in app.js")
       (lit "Add { secure: true } to cookies to enforce HTTPS.")].
Proof.
  split.
  - apply (cookie_rules_independent (lit "app.js")
             (bytes "res.cookie('sid', v, { HttpOnly })"));
      vm_compute; reflexivity.
  - apply (cookie_rules_independent (lit "app.js")
             (bytes "res.cookie('sid', v)"));
      vm_compute; reflexivity.
Defined.

(** Comparisons of code units, from [bool] to [Prop]. *)
Ltac units :=
  repeat match goal with
         | H : (_ && _)%bool = true |- _ => apply andb_true_iff in H as [? ?]
         | H : (_ && _)%bool = false |- _ => apply andb_false_iff in H
         | H : (_ || _)%bool = true |- _ => apply orb_true_iff in H
         | H : (_ || _)%bool = false |- _ => apply orb_false_iff in H as [? ?]
         | H : negb _ = true |- _ => apply negb_true_iff in H
         | H : negb _ = false |- _ => apply negb_false_iff in H
         | H : (_ <=? _) = true |- _ => apply N.leb_le in H
         | H : (_ <=? _) = false |- _ => apply N.leb_gt in H
         | H : (_ =? _) = true |- _ => apply N.eqb_eq in H
         | H : (_ =? _) = false |- _ => apply N.eqb_neq in H
         | H : _ \/ _ |- _ => destruct H
         | H : false = true |- _ => discriminate H
         | H : true = false |- _ => discriminate H
         end.

Lemma quote_match (i : bool) (c : char16) :
  atom_match i (Class [only DQUOTE; only SQUOTE]) c = true ->
  c = DQUOTE \/ c = SQUOTE.
Proof.
  unfold atom_match, in_ranges, existsb, only, fst, snd, DQUOTE, SQUOTE,
    ascii_upper, ascii_lower.
  intros H.
  destruct ((0x61 <=? c) && (c <=? 0x7A))%bool eqn:E1;
    destruct ((0x41 <=? c) && (c <=? 0x5A))%bool eqn:E2;
    destruct i; cbn [andb orb] in H; units; lia.
Qed.

(** X6.  The hard-coded password rule needs a quote: a text that
    triggers it contains a single or a double quote. *)
Lemma password_needs_quote (content : jsstring) :
  jsmatch content re_password = true ->
  In DQUOTE content \/ In SQUOTE content.
Proof.
  intros H. apply jsmatch_spec in H as (pre & m & post & -> & H).
  cbn [source ignoreCase re_password seqs fold_right] in H.
  apply seq_inv0 in H as (a1 & m1 & -> & _ & H).
  apply seq_inv0 in H as (a2 & m2 & -> & _ & H).
  apply seq_inv0 in H as (a3 & m3 & -> & _ & H).
  apply seq_inv0 in H as (a4 & m4 & -> & _ & H).
  apply seq_inv0 in H as (q & m5 & -> & Hq & _).
  apply one_inv in Hq as (c & -> & Hc).
  apply quote_match in Hc as [-> | ->]; [left | right];
    rewrite !in_app_iff; cbn [In]; intuition auto.
Qed.


Lemma in_existsb (x : jsstring) (l : list jsstring) :
  In x l -> existsb (jseq x) l = true.
Proof.
  intros H. apply existsb_exists. exists x. split; [exact H | apply jseq_refl].
Qed.

Lemma finding_hint (p p' : jsstring) (r r' : rule) :
  finding p r = finding p' r' -> r_hint r = r_hint r'.
Proof. intros H. apply (f_equal hint) in H. exact H. Qed.

Lemma rule_password_in_content : In rule_password content_rules.
Proof. right; right; left; reflexivity. Qed.

Lemma rule_password_not_filename : ~ In rule_password filename_rules.
Proof.
  intros H. apply (in_map r_hint) in H. apply in_existsb in H.
  vm_compute in H. discriminate.
Qed.

(** C6.  A file whose text contains [password = "hunter2"] gets the
    finding of the hard-coded password rule (rule 3), in category Secrets
    with severity Critical; a file whose text is [password=hunter2],
    without quotes, does not get it. *)
Theorem hardcoded_password_rule (filePath : jsstring) (buf : list byte)
    (pre post : jsstring) :
  let found :=
    Issue Secrets Critical (lit "Hardcoded password found in " ++ filePath)
      (lit "Never hardcode passwords. Use env vars or secure vaults.") in
  toString_utf8 buf = pre ++ quoted_password ++ post ->
  In found (scanFile filePath (Some buf)) /\
  ~ In found (scanFile filePath (Some (bytes "password=hunter2"))).
Proof.
  intros found Hbuf.
  assert (Ef : found = finding filePath rule_password).
  { unfold found, finding, rule_password.
    cbn [r_category r_severity r_text r_hint]. reflexivity. }
  rewrite Ef. clear Ef found.
  pose proof rule_password_in_content as Hr.
  split.
  - apply in_scanFile. right. exists buf, rule_password.
    split; [reflexivity|]. split; [exact Hr|]. split; [|reflexivity].
    rewrite Hbuf. unfold rule_password. cbn [triggered].
    apply jsmatch_intro. vm_compute. reflexivity.
  - intros H. pose proof (proj1 (in_scanFile _ _ _) H) as H'. clear H.
    destruct H' as [(r & Hr' & _ & E) | (b & r & Hb & Hr' & Ht & E)].
    + assert (E' : rule_password = r).
      { apply rule_of_hint.
        - apply content_rule_in_catalog; exact Hr.
        - apply filename_rule_in_catalog; exact Hr'.
        - exact (finding_hint _ _ _ _ E). }
      subst r. exact (rule_password_not_filename Hr').
    + assert (E' : rule_password = r).
      { apply rule_of_hint.
        - apply content_rule_in_catalog; exact Hr.
        - apply content_rule_in_catalog; exact Hr'.
        - exact (finding_hint _ _ _ _ E). }
      subst r. injection Hb as <-. vm_compute in Ht. discriminate.
Qed.

Lemma hardcoded_password_rule_witness :
  let found :=
    Issue Secrets Critical (lit "Hardcoded password found in " ++ lit "src/db.js")
      (lit "Never hardcode passwords. Use env vars or secure vaults.") in
  In found (scanFile (lit "src/db.js")
              (Some (bytes "const password = " ++ x22 :: bytes "hunter2" ++
                     x22 :: bytes ";"))) /\
  ~ In found (scanFile (lit "src/db.js") (Some (bytes "password=hunter2"))).
Proof.
  apply (hardcoded_password_rule (lit "src/db.js") _ (lit "const ") (lit ";")).
  vm_compute. reflexivity.
Defined.

(* ================================================================== *)
(** * Matching at one position *)

Lemma bool_eq_iff (b1 b2 : bool) : (b1 = true <-> b2 = true) -> b1 = b2.
Proof. destruct b1, b2; intuition congruence. Qed.

Section MatchHere.

Variable i : bool.

Lemma match_here_ext (r1 r2 : regex) (s : jsstring) :
  (forall m, matches i r1 m <-> matches i r2 m) ->
  match_here i r1 s = match_here i r2 s.
Proof.
  intros E. apply bool_eq_iff. rewrite !match_here_spec.
  split; intros (m & rest & -> & H); exists m, rest;
    (split; [reflexivity | apply E; exact H]).
Qed.

Lemma match_here_one_nil (a : atom) (r : regex) :
  match_here i (Seq (One a) r) [] = false.
Proof. reflexivity. Qed.

Lemma match_here_one_cons (a : atom) (r : regex) (c : char16) (s : jsstring) :
  match_here i (Seq (One a) r) (c :: s) = atom_match i a c && match_here i r s.
Proof.
  apply bool_eq_iff.
  rewrite andb_true_iff, !match_here_spec. split.
  - intros (m & rest & E & H).
    apply seq_inv0 in H as (m1 & m2 & -> & H1 & H2).
    apply one_inv in H1 as (c' & -> & Hc). injection E as -> ->.
    split; [exact Hc | exists m2, rest; auto].
  - intros (Hc & m & rest & -> & H). exists (c :: m), rest.
    split; [reflexivity|].
    apply (m_seq i (One a) r [c] m); [constructor; exact Hc | exact H].
Qed.

Lemma match_here_str (l : jsstring) (r : regex) (s : jsstring) :
  match_here i (Seq (Str l) r) s =
  match strip i l s with
  | Some s' => match_here i r s'
  | None => false
  end.
Proof.
  revert s; induction l as [|c l IH]; intros s; cbn [Str strip].
  - apply match_here_ext. intros m. rewrite seq_inv. split.
    + intros (m1 & m2 & -> & H1 & H2). apply eps_inv in H1 as ->. exact H2.
    + intros H. exists [], m. repeat split; [constructor | exact H].
  - rewrite (match_here_ext _ (Seq (One (Chr c)) (Seq (Str l) r))).
    + destruct s as [|x s].
      * apply match_here_one_nil.
      * rewrite match_here_one_cons.
        destruct (atom_match i (Chr c) x); [apply IH | reflexivity].
    + intros m. rewrite !seq_inv. split.
      * intros (m12 & m3 & -> & H12 & H3).
        apply seq_inv0 in H12 as (m1 & m2 & -> & H1 & H2).
        exists m1, (m2 ++ m3). rewrite app_assoc.
        repeat split; auto. constructor; assumption.
      * intros (m1 & m23 & -> & H1 & H23).
        apply seq_inv0 in H23 as (m2 & m3 & -> & H2 & H3).
        exists (m1 ++ m2), m3. rewrite app_assoc.
        repeat split; auto. constructor; assumption.
Qed.

Lemma match_here_alt_seq (r1 r2 r : regex) (s : jsstring) :
  match_here i (Seq (Alt r1 r2) r) s =
  match_here i (Seq r1 r) s || match_here i (Seq r2 r) s.
Proof.
  apply bool_eq_iff. rewrite orb_true_iff, !match_here_spec. split.
  - intros (m & rest & -> & H).
    apply seq_inv0 in H as (m1 & m2 & -> & H1 & H2).
    apply alt_inv in H1 as [H1 | H1]; [left | right];
      exists (m1 ++ m2), rest; (split; [reflexivity | constructor; assumption]).
  - intros [(m & rest & -> & H) | (m & rest & -> & H)];
      apply seq_inv0 in H as (m1 & m2 & -> & H1 & H2);
      exists (m1 ++ m2), rest; (split; [reflexivity|]); constructor; auto;
      [apply m_alt_l | apply m_alt_r]; assumption.
Qed.

(** Two pattern characters that differ up to case are not matched by
    the same code unit. *)
Lemma chr_conflict (x y c : char16) :
  canonicalize i x <> canonicalize i y ->
  atom_match i (Chr x) c = true -> atom_match i (Chr y) c = false.
Proof.
  cbn [atom_match]. intros N H. apply N.eqb_eq in H.
  apply N.eqb_neq. congruence.
Qed.

End MatchHere.

(** After the quote, the name [sha256] excludes both [md5] and [sha1]. *)
Lemma hash_names_exclusive (s : jsstring) :
  strip true (lit "sha256") s = None \/
  (strip true (lit "md5") s = None /\ strip true (lit "sha1") s = None).
Proof.
  change (lit "sha256") with [115; 104; 97; 50; 53; 54].
  change (lit "md5") with [109; 100; 53].
  change (lit "sha1") with [115; 104; 97; 49].
  destruct s as [|c1 s]; [left; reflexivity|].
  cbn [strip].
  destruct (atom_match true (Chr 115) c1) eqn:E1; [|left; reflexivity].
  rewrite (chr_conflict true 115 109 c1); [|vm_compute; discriminate | exact E1].
  destruct s as [|c2 s]; [left; reflexivity|].
  destruct (atom_match true (Chr 104) c2); [|left; reflexivity].
  destruct s as [|c3 s]; [left; reflexivity|].
  destruct (atom_match true (Chr 97) c3); [|left; reflexivity].
  destruct s as [|c4 s]; [left; reflexivity|].
  destruct (atom_match true (Chr 50) c4) eqn:E4; [|left; reflexivity].
  right. split; [reflexivity|].
  rewrite (chr_conflict true 50 49 c4); [reflexivity | vm_compute; discriminate | exact E4].
Qed.

(** C7.  The pattern of the weak-crypto rule (rule 10) and that of the
    plain-SHA256 rule (rule 11) never both match at the same position of
    a text: one occurrence of a hash-construction call, with its one
    quoted algorithm name, satisfies at most one of the two. *)
Theorem weak_hash_sha256_exclusive (s : jsstring) :
  match_here (ignoreCase re_weak_hash) (source re_weak_hash) s &&
  match_here (ignoreCase re_sha256) (source re_sha256) s = false.
Proof.
  unfold re_weak_hash, re_sha256. cbn [source ignoreCase seqs fold_right].
  rewrite !match_here_str.
  destruct (strip true (lit "crypto.createHash(") s) as [[|q s2]|];
    [reflexivity | | reflexivity].
  unfold quote. rewrite !match_here_one_cons.
  destruct (atom_match true _ q); cbn [andb]; [|reflexivity].
  rewrite match_here_alt_seq, !match_here_str.
  destruct (hash_names_exclusive s2) as [-> | [-> ->]].
  - apply andb_false_r.
  - reflexivity.
Qed.

(* ================================================================== *)
(** * The traversal *)

(** Induction on the tree, with the entries of a directory. *)
Lemma node_tree_ind (P : node -> Prop) :
  P NoStat ->
  (forall read, P (File read)) ->
  (forall files, Forall (fun entry => P (snd entry)) files -> P (Dir files)) ->
  P DirNoList ->
  P Special ->
  forall n, P n.
Proof.
  intros HN HF HD HL HS. fix IH 1. intros [|read|files| |].
  - exact HN.
  - apply HF.
  - apply HD. induction files as [|[file child] files IHf]; constructor.
    + apply IH.
    + exact IHf.
  - exact HL.
  - exact HS.
Qed.

Lemma for_of_map {A B} (g : A -> B) (body1 : B -> action) (body2 : A -> action)
    (xs : list A) (issues : list issue) :
  Forall (fun x => forall issues, body1 (g x) issues = body2 x issues) xs ->
  for_of body1 (map g xs) issues = for_of body2 xs issues.
Proof.
  intros H. revert issues. induction H as [|x xs Hx _ IH]; intros issues.
  - reflexivity.
  - cbn [map for_of]. rewrite Hx. destruct (body2 x issues); [apply IH | reflexivity].
Qed.

(** The traversal does not see what [prune] removes. *)
Lemma walk_prune (n : node) :
  forall currentPath issues,
    walk currentPath (prune currentPath n) issues = walk currentPath n issues.
Proof.
  induction n as [|read|files IH| |] using node_tree_ind;
    intros currentPath issues; try reflexivity.
  - cbn [prune walk].
    destruct (array_includes excluded (Path.basename currentPath)) eqn:E.
    + cbn [walk]. rewrite E. reflexivity.
    + cbn [walk]. rewrite E. apply for_of_map.
      apply Forall_forall. intros [file child] Hin issues'.
      rewrite Forall_forall in IH. apply (IH _ Hin).
  - cbn [prune walk].
    destruct (array_includes excluded (Path.basename currentPath)) eqn:E.
    + cbn [walk]. rewrite E. reflexivity.
    + cbn [walk]. rewrite E. reflexivity.
Qed.

(** The three excluded names are names of directory entries, so for an
    entry the test of [walk] is a test on the name of the entry. *)
Lemma excluded_entry_name (file : jsstring) :
  array_includes excluded file = true -> entry_name file = true.
Proof.
  unfold array_includes, excluded. cbn [existsb].
  rewrite !orb_true_iff, !jseq_spec.
  intros [-> | [-> | [-> | H]]]; [reflexivity.. | discriminate H].
Qed.

(** X3.  A directory entry named node_modules, .git or dist is left
    alone, wherever it is and whatever it holds: the traversal returns
    from it with the findings it had, and reaches no file below it. *)
Lemma excluded_entry_skipped (currentPath file : jsstring)
    (files : list (jsstring * node)) (issues : list issue) :
  array_includes excluded file = true ->
  walk (Path.join currentPath file) (Dir files) issues = Some issues /\
  files_of (Path.join currentPath file) (Dir files) = [].
Proof.
  intros H. cbn [walk files_of].
  rewrite (PathFacts.basename_join currentPath file (excluded_entry_name file H)).
  rewrite H. split; reflexivity.
Qed.

(** C3.  Two trees that differ only below directories whose base name
    is node_modules, .git or dist, that is, two trees that are the same
    once what lies below such directories is removed, give the same scan:
    no file on a path through such a directory contributes a finding, and
    nothing below it is even listed. *)
Theorem excluded_directories_contribute_nothing
    (targetPath : jsstring) (tree1 tree2 : node) :
  prune targetPath tree1 = prune targetPath tree2 ->
  scanForSecrets targetPath tree1 = scanForSecrets targetPath tree2.
Proof.
  intros E. unfold scanForSecrets.
  rewrite <- (walk_prune tree1), <- (walk_prune tree2), E. reflexivity.
Qed.

Lemma excluded_directories_contribute_nothing_witness :
  scanForSecrets (lit "app")
    (Dir [(lit "node_modules", Dir [(lit ".env", File None);
                                    (lit "pkg", DirNoList)]);
          (lit "id_rsa", File None)])
  = scanForSecrets (lit "app")
    (Dir [(lit "node_modules", Dir []);
          (lit "id_rsa", File None)]).
Proof.
  apply excluded_directories_contribute_nothing.
  vm_compute. reflexivity.
Defined.

(** C10.  When the root path is a directory whose base name is
    node_modules, .git or dist, the scan returns the empty sequence,
    whatever the directory holds. *)
Theorem excluded_root_is_empty (targetPath : jsstring) (root : node) :
  isDirectory root = true ->
  array_includes excluded (Path.basename targetPath) = true ->
  scanForSecrets targetPath root = Some [].
Proof.
  intros Hd He. unfold scanForSecrets.
  destruct root; try discriminate Hd; cbn [walk]; rewrite He; reflexivity.
Qed.

Lemma excluded_root_is_empty_witness :
  scanForSecrets (lit "project/dist/")
    (Dir [(lit ".env", File (Some (bytes "AWS_SECRET_KEY")))]) = Some [].
Proof.
  apply excluded_root_is_empty; vm_compute; reflexivity.
Defined.

(** Without a directory that cannot be listed, [walk] returns. *)
Lemma walk_returns (n : node) :
  forall currentPath issues,
    listable (prune currentPath n) = true ->
    exists found, walk currentPath n issues = Some found.
Proof.
  induction n as [|read|files IH| |] using node_tree_ind;
    intros currentPath issues H; cbn [walk]; eauto.
  - cbn [prune] in H.
    destruct (array_includes excluded (Path.basename currentPath)); eauto.
    cbn [listable] in H. rewrite forallb_forall in H.
    revert issues. induction files as [|[file child] files IHf]; intros issues.
    + cbn [for_of]. eauto.
    + cbn [for_of]. inversion IH as [|? ? Hc Hfs]; subst. cbn [snd] in Hc.
      destruct (Hc (Path.join currentPath file) issues) as [found ->].
      { apply (H (file, prune (Path.join currentPath file) child)).
        left. reflexivity. }
      apply IHf; [exact Hfs|].
      intros x Hx. apply H. right. exact Hx.
  - cbn [prune] in H.
    destruct (array_includes excluded (Path.basename currentPath)); eauto.
    discriminate H.
Qed.

(** C1, as the code has it.  A root path that cannot be stat-ed gives
    the empty sequence and no error; and whatever paths below the root
    cannot be stat-ed, and whatever files cannot be read, the scan
    returns its findings, as long as the directories it enters can be
    listed. *)
Theorem stat_failure_is_skipped (targetPath : jsstring) (root : node) :
  scanForSecrets targetPath NoStat = Some [] /\
  (listable (prune targetPath root) = true ->
   exists found, scanForSecrets targetPath root = Some found).
Proof.
  split; [reflexivity | apply walk_returns].
Qed.

Lemma stat_failure_is_skipped_witness :
  scanForSecrets (lit "repo") NoStat = Some [] /\
  exists found,
    scanForSecrets (lit "repo")
      (Dir [(lit "gone", NoStat);
            (lit "locked.pem", File None);
            (lit "src", Dir [(lit "pipe", Special)])]) = Some found.
Proof.
  split.
  - apply (stat_failure_is_skipped (lit "repo") NoStat).
  - apply (stat_failure_is_skipped (lit "repo")). vm_compute. reflexivity.
Defined.

(** The claim C1 fails at a root that cannot be stat-ed: the scan
    returns the empty sequence, and does not throw. *)
Lemma root_stat_failure_not_reported :
  scanForSecrets (lit "no-such-path") NoStat = Some [] /\
  scanForSecrets (lit "no-such-path") NoStat <> None.
Proof. split; [reflexivity | discriminate]. Qed.

(** A directory that cannot be listed does abort the scan, and the
    findings made before it are lost with it. *)
Lemma unlistable_directory_aborts :
  scanForSecrets (lit "repo")
    (Dir [(lit ".env", File None); (lit "locked", DirNoList)]) = None.
Proof. vm_compute. reflexivity. Qed.

(* ================================================================== *)
(** * The scan archive *)

Section ArchiveFacts.

Variable stamp : Type.
Variable getTime : stamp -> option Z.

(** The loops collect the scans repository by repository. *)
Lemma collect_flattened (repos : list (repo stamp)) :
  collect repos = flattened repos.
Proof.
  unfold collect, flattened.
  assert (Inner : forall (r : repo stamp) ss (acc : list (archived stamp)),
    fold_left (fun allScans s =>
      allScans ++ [Archived (repoName r) (issues s) (scannedAt s)]) ss acc =
    acc ++ map (fun s => Archived (repoName r) (issues s) (scannedAt s)) ss).
  { intros r ss. induction ss as [|s ss IH]; intros acc; cbn [fold_left map].
    - symmetry; apply app_nil_r.
    - rewrite IH, <- app_assoc. reflexivity. }
  assert (Outer : forall (rs : list (repo stamp)) (acc : list (archived stamp)),
    fold_left (fun allScans r =>
      fold_left (fun allScans s =>
        allScans ++ [Archived (repoName r) (issues s) (scannedAt s)])
        (scans r) allScans) rs acc =
    acc ++ flat_map (fun r =>
      map (fun s => Archived (repoName r) (issues s) (scannedAt s)) (scans r))
      rs).
  { induction rs as [|r rs IH]; intros acc; cbn [fold_left flat_map].
    - symmetry; apply app_nil_r.
    - rewrite IH, Inner, <- app_assoc. reflexivity. }
  apply (Outer repos []).
Qed.

Lemma insert_perm (x : archived stamp) (l : list (archived stamp)) :
  Permutation (insert getTime x l) (x :: l).
Proof.
  induction l as [|y l IH]; cbn [insert]; [reflexivity|].
  destruct (compareFn getTime x y <=? 0)%Z; [reflexivity|].
  rewrite IH. apply perm_swap.
Qed.

Lemma sort_perm (l : list (archived stamp)) : Permutation (sort getTime l) l.
Proof.
  induction l as [|x l IH]; cbn [sort fold_right]; [reflexivity|].
  fold (sort getTime l). rewrite insert_perm, IH. reflexivity.
Qed.

Lemma insert_sorted (x : archived stamp) (l : list (archived stamp)) :
  valid getTime x -> Forall (valid getTime) l ->
  newest_first getTime l -> newest_first getTime (insert getTime x l).
Proof.
  unfold newest_first. intros Hx Hl Hs.
  induction Hs as [|y l Hs IH Hy]; cbn [insert].
  - repeat constructor.
  - inversion Hl as [|? ? Vy Vl]; subst.
    unfold valid in Hx, Vy. unfold compareFn.
    destruct (getTime (a_scannedAt x)) as [tx|] eqn:Ex; [|congruence].
    destruct (getTime (a_scannedAt y)) as [ty|] eqn:Ey; [|congruence].
    destruct (ty - tx <=? 0)%Z eqn:Ec.
    + apply Z.leb_le in Ec. constructor; [constructor; assumption|].
      constructor.
      * intros ta tb Ha Hb. rewrite Ex in Ha. rewrite Ey in Hb.
        injection Ha as <-. injection Hb as <-. lia.
      * rewrite Forall_forall in Hy |- *. intros z Hz ta tb Ha Hb.
        rewrite Ex in Ha. injection Ha as <-.
        specialize (Hy z Hz ty tb Ey Hb). lia.
    + apply Z.leb_gt in Ec. constructor; [apply IH; exact Vl|].
      assert (P : Forall (not_older getTime y) (x :: l)).
      { constructor; [|exact Hy].
        intros ta tb Ha Hb. rewrite Ey in Ha. rewrite Ex in Hb.
        injection Ha as <-. injection Hb as <-. lia. }
      rewrite Forall_forall in P |- *. intros z Hz. apply P.
      apply (Permutation_in z (insert_perm x l)). exact Hz.
Qed.

Lemma sort_sorted (l : list (archived stamp)) :
  Forall (valid getTime) l -> newest_first getTime (sort getTime l).
Proof.
  induction 1 as [|x l Hx Hl IH]; cbn [sort fold_right].
  - constructor.
  - fold (sort getTime l). apply insert_sorted; [exact Hx | | exact IH].
    rewrite Forall_forall in Hl |- *. intros z Hz. apply Hl.
    apply (Permutation_in z (sort_perm l)). exact Hz.
Qed.

Lemma flattened_valid (repos : list (repo stamp)) :
  Forall (dated getTime) repos -> Forall (valid getTime) (flattened repos).
Proof.
  unfold flattened, dated. intros H. apply Forall_flat_map.
  eapply Forall_impl; [|exact H]. intros r Hr. cbn beta in Hr.
  apply Forall_map. eapply Forall_impl; [|exact Hr].
  intros s Hs. exact Hs.
Qed.

(** C9, as the code has it.  When every recorded scan has a valid
    date, the archive is the flattened list of all recorded scans,
    rearranged so that no scan stands before a newer one. *)
Theorem archive_newest_first (repos : list (repo stamp)) :
  Forall (dated getTime) repos ->
  Permutation (get_scans getTime repos) (flattened repos) /\
  newest_first getTime (get_scans getTime repos).
Proof.
  intros H. unfold get_scans. rewrite collect_flattened. split.
  - apply sort_perm.
  - apply sort_sorted. apply flattened_valid. exact H.
Qed.

End ArchiveFacts.

Lemma archive_newest_first_witness :
  let repos :=
    [Repo (lit "api") [Scan [] 1%Z; Scan [] 3%Z]; Repo (lit "cli") [Scan [] 2%Z]] in
  Permutation (get_scans Some repos) (flattened repos) /\
  newest_first Some (get_scans Some repos).
Proof.
  apply (archive_newest_first Z Some).
  repeat constructor; discriminate.
Defined.

(** The claim C9 fails on an archive with a scan whose date is not
    valid: the scan of time 1 stays before that of time 2. *)
Lemma archive_invalid_date_unsorted :
  let repos :=
    [Repo (lit "api") [Scan [] (Some 1%Z); Scan [] None; Scan [] (Some 2%Z)]] in
  map a_scannedAt (get_scans (fun t => t) repos) = [Some 1%Z; None; Some 2%Z] /\
  ~ newest_first (fun t => t) (get_scans (fun t => t) repos).
Proof.
  intros repos. split; [reflexivity|].
  assert (E : get_scans (fun t => t) repos =
              [Archived (lit "api") [] (Some 1%Z); Archived (lit "api") [] None;
               Archived (lit "api") [] (Some 2%Z)]) by reflexivity.
  rewrite E. intros H.
  inversion H as [|? ? _ Hall]; subst.
  inversion Hall as [|? ? _ Hall']; subst.
  inversion Hall' as [|? ? H12 _]; subst.
  specialize (H12 1%Z 2%Z eq_refl eq_refl). lia.
Qed.


(* ================================================================== *)
(** * The scenarios of the specification, run on the model *)

(** A file named [.env.local] gets the finding of the first file-name
    rule, whether it can be read or not. *)
Example env_local_file :
  scanFile (lit "conf/.env.local") None =
  [Issue Secrets Critical (lit "Sensitive .env file detected: conf/.env.local")
     (lit "Never commit .env files. Use environment variables or secret managers.")].
Proof. vm_compute. reflexivity. Qed.

Example empty_directory : scanForSecrets (lit "empty") (Dir []) = Some [].
Proof. reflexivity. Qed.

(** The name of the directory decides, not its case or its place. *)
Example node_modules_is_skipped :
  scanForSecrets (lit ".")
    (Dir [(lit "node_modules", Dir [(lit ".env", File None)]);
          (lit "Node_Modules", Dir [(lit "a.log", File None)])])
  = Some [Issue Logging Low (lit "Debug log file detected: Node_Modules/a.log")
            (lit "Logs may leak sensitive data. Avoid committing them.")].
Proof. vm_compute. reflexivity. Qed.

(** A text with two hash-construction calls triggers rule 10 and rule
    11, each on its own occurrence. *)
Example two_hash_calls :
  let text := lit "crypto.createHash('md5'); crypto.createHash('sha256')" in
  jsmatch text re_weak_hash = true /\ jsmatch text re_sha256 = true.
Proof. vm_compute. split; reflexivity. Qed.

(** The traversal scans the regular files it reaches, in the order of
    the listings. *)
Lemma walk_files (n : node) :
  forall currentPath issues found,
    walk currentPath n issues = Some found ->
    found = issues ++ flat_map (fun e => scanFile (fst e) (snd e))
                               (files_of currentPath n).
Proof.
  induction n as [|read|files IH| |] using node_tree_ind;
    intros currentPath issues found; cbn [walk files_of].
  - intros [= <-]. symmetry; apply app_nil_r.
  - intros [= <-]. cbn [flat_map fst snd]. rewrite app_nil_r. reflexivity.
  - destruct (array_includes excluded (Path.basename currentPath)).
    { intros [= <-]. symmetry; apply app_nil_r. }
    revert issues. induction files as [|[file child] files IHf];
      intros issues; cbn [for_of flat_map].
    + intros [= <-]. symmetry; apply app_nil_r.
    + inversion IH as [|? ? Hc Hfs]; subst. cbn [snd] in Hc.
      destruct (walk (Path.join currentPath file) child issues) as [mid|] eqn:E;
        [|discriminate].
      intros Hrest. rewrite (IHf Hfs mid Hrest), (Hc _ _ _ E).
      rewrite flat_map_app, app_assoc. reflexivity.
  - destruct (array_includes excluded (Path.basename currentPath));
      [|discriminate].
    intros [= <-]. symmetry; apply app_nil_r.
  - intros [= <-]. symmetry; apply app_nil_r.
Qed.

(** X4.  Every finding of a scan comes from a regular file that the
    traversal reached, and its message contains the path of that file. *)
Lemma scan_finding_embeds_path (targetPath : jsstring) (root : node)
    (found : list issue) (f : issue) :
  scanForSecrets targetPath root = Some found -> In f found ->
  exists filePath read,
    In (filePath, read) (files_of targetPath root) /\
    In f (scanFile filePath read) /\
    includes (message f) filePath = true.
Proof.
  intros H Hf. apply walk_files in H. subst found. cbn [app] in Hf.
  apply in_flat_map in Hf as ([q rd] & Hq & Hf). cbn [fst snd] in Hf.
  exists q, rd. repeat split; auto.
  apply scanFile_from_catalog in Hf as (r & _ & ->).
  apply includes_spec. exists (r_text r), []. cbn [finding message].
  rewrite app_nil_r. reflexivity.
Qed.

(* ================================================================== *)
(** * More on the scanner *)

Lemma walk_aborts (n : node) :
  forall currentPath issues,
    listable (prune currentPath n) = false ->
    walk currentPath n issues = None.
Proof.
  induction n as [|read|files IH| |] using node_tree_ind;
    intros currentPath issues H; cbn [prune listable] in H;
    try discriminate H; cbn [walk].
  - destruct (array_includes excluded (Path.basename currentPath));
      [discriminate H|].
    cbn [listable] in H. revert issues H.
    induction files as [|[file child] files IHf]; intros issues H;
      cbn [map forallb for_of snd] in *; [discriminate H|].
    inversion IH as [|? ? Hc Hfs]; subst. cbn [snd] in Hc.
    destruct (listable (prune (Path.join currentPath file) child)) eqn:E.
    + destruct (walk_returns child _ issues E) as [mid ->].
      apply IHf; [exact Hfs | exact H].
    + rewrite (Hc _ issues E). reflexivity.
  - destruct (array_includes excluded (Path.basename currentPath));
      [discriminate H | reflexivity].
Qed.

(** X1.  When every directory that the traversal enters can be listed,
    the scan returns the findings of [scanFile] on the regular files it
    reaches, file after file in the order of the listings. *)
Theorem scan_is_concatenation (targetPath : jsstring) (root : node) :
  listable (prune targetPath root) = true ->
  scanForSecrets targetPath root =
  Some (flat_map (fun e => scanFile (fst e) (snd e)) (files_of targetPath root)).
Proof.
  intros H. destruct (walk_returns root targetPath [] H) as [found E].
  unfold scanForSecrets. rewrite E. f_equal.
  apply (walk_files root targetPath [] found E).
Qed.

(** X2.  The scan throws exactly when a directory outside the
    excluded ones cannot be listed: [readdirSync] is the one call of the
    traversal without a [try]. *)
Theorem scan_throws_iff_unlistable (targetPath : jsstring) (root : node) :
  scanForSecrets targetPath root = None <->
  listable (prune targetPath root) = false.
Proof.
  split.
  - intros H. destruct (listable (prune targetPath root)) eqn:E; [|reflexivity].
    destruct (walk_returns root targetPath [] E) as [found E'].
    unfold scanForSecrets in H. congruence.
  - apply walk_aborts.
Qed.

Lemma ascii_upper_idem (c : char16) : ascii_upper (ascii_upper c) = ascii_upper c.
Proof.
  unfold ascii_upper.
  destruct ((0x61 <=? c) && (c <=? 0x7A))%bool eqn:E.
  - destruct ((0x61 <=? c - 32) && (c - 32 <=? 0x7A))%bool eqn:E'; [|reflexivity].
    units; lia.
  - rewrite E. reflexivity.
Qed.

Lemma ascii_lower_upper (c : char16) :
  ascii_upper c = c \/ (ascii_lower (ascii_upper c) = c /\ ascii_lower c = c).
Proof.
  unfold ascii_upper, ascii_lower.
  destruct ((0x61 <=? c) && (c <=? 0x7A))%bool eqn:E; [right | left; reflexivity].
  destruct ((0x41 <=? c - 32) && (c - 32 <=? 0x5A))%bool eqn:E1;
    destruct ((0x41 <=? c) && (c <=? 0x5A))%bool eqn:E2; units; split; lia.
Qed.

Lemma letter_not_space (x : char16) :
  0x41 <= x <= 0x7A -> isSpace x = false /\ isLineTerminator x = false.
Proof.
  intros H. unfold isSpace, isLineTerminator.
  split; repeat (apply orb_false_intro);
    try (apply N.eqb_neq; lia);
    apply andb_false_iff; left; apply N.leb_gt; lia.
Qed.

Lemma upper_letter (c : char16) :
  ascii_upper c = c \/ (0x41 <= ascii_upper c <= 0x7A /\ 0x41 <= c <= 0x7A).
Proof.
  unfold ascii_upper.
  destruct ((0x61 <=? c) && (c <=? 0x7A))%bool eqn:E; [right | left; reflexivity].
  units. lia.
Qed.

Lemma atom_match_upper (a : atom) (c : char16) :
  atom_match true a (ascii_upper c) = atom_match true a c.
Proof.
  destruct a as [x|rs| | |]; cbn [atom_match canonicalize andb].
  - rewrite ascii_upper_idem. reflexivity.
  - rewrite ascii_upper_idem.
    destruct (ascii_lower_upper c) as [E | [E1 E2]].
    + rewrite !E. reflexivity.
    + rewrite E1, E2.
      destruct (in_ranges rs c), (in_ranges rs (ascii_upper c)); reflexivity.
  - destruct (upper_letter c) as [-> | [H1 H2]]; [reflexivity|].
    destruct (letter_not_space _ H1) as [_ ->].
    destruct (letter_not_space _ H2) as [_ ->]. reflexivity.
  - destruct (upper_letter c) as [-> | [H1 H2]]; [reflexivity|].
    destruct (letter_not_space _ H1) as [-> _].
    destruct (letter_not_space _ H2) as [-> _]. reflexivity.
  - destruct (upper_letter c) as [-> | [H1 H2]]; [reflexivity|].
    destruct (letter_not_space _ H1) as [-> _].
    destruct (letter_not_space _ H2) as [-> _]. reflexivity.
Qed.

Lemma deriv_upper (c : char16) (r : regex) :
  deriv true (ascii_upper c) r = deriv true c r.
Proof.
  induction r; cbn [deriv];
    rewrite ?atom_match_upper, ?IHr1, ?IHr2, ?IHr; reflexivity.
Qed.

Lemma match_here_upper (r : regex) (s : jsstring) :
  match_here true r (upcase s) = match_here true r s.
Proof.
  revert r; induction s as [|c s IH]; intros r; [reflexivity|].
  cbn [upcase map match_here]. rewrite deriv_upper. f_equal. apply IH.
Qed.

Lemma search_upper (r : regex) (s : jsstring) :
  search true r (upcase s) = search true r s.
Proof.
  induction s as [|c s IH]; [reflexivity|].
  change (upcase (c :: s)) with (ascii_upper c :: upcase s).
  cbn [search]. rewrite IH. f_equal.
  apply (match_here_upper r (c :: s)).
Qed.

(** A pattern with the [i] flag gives the same answer on a text and on
    its ASCII upper-casing. *)
Lemma ignore_case_patterns (re : RegExp) (content : jsstring) :
  ignoreCase re = true ->
  jsmatch (upcase content) re = jsmatch content re.
Proof.
  unfold jsmatch. intros ->. apply search_upper.
Qed.

(** X9.  The rules on passwords, API keys, connection strings, hash
    calls, default credentials and logging, whose patterns all carry the
    [i] flag, give the same verdict on a text and on its ASCII
    upper-casing. *)
Theorem case_blind_rules_ignore_case :
  Forall (fun r => forall content,
            triggered r (upcase content) = triggered r content)
         case_blind_rules.
Proof.
  unfold case_blind_rules.
  repeat constructor; intros content; cbn [triggered rule_password rule_api_key
    rule_mongodb rule_postgres rule_weak_hash rule_sha256 rule_default_cred
    rule_logging];
    rewrite ?ignore_case_patterns by reflexivity; reflexivity.
Qed.

Lemma jsmatch_mono (re : RegExp) (pre content post : jsstring) :
  jsmatch content re = true -> jsmatch (pre ++ content ++ post) re = true.
Proof.
  rewrite !jsmatch_spec. intros (a & m & b & -> & H).
  exists (pre ++ a), m, (b ++ post). split; [|exact H].
  rewrite <- !app_assoc. reflexivity.
Qed.

Lemma includes_mono (t pre content post : jsstring) :
  includes content t = true -> includes (pre ++ content ++ post) t = true.
Proof.
  rewrite !includes_spec. intros (a & b & ->).
  exists (pre ++ a), (b ++ post). rewrite <- !app_assoc. reflexivity.
Qed.

(** X10.  A content rule that only asks for something to be present
    (all but the two cookie rules and the S3 rule) stays triggered when
    text is added before and after. *)
Theorem positive_rules_monotone (r : rule) (pre content post : jsstring) :
  In r positive_rules ->
  triggered r content = true ->
  triggered r (pre ++ content ++ post) = true.
Proof.
  unfold positive_rules. cbn [In].
  intros H.
  repeat (destruct H as [<- | H]); try contradiction;
    cbn [triggered rule_aws_key rule_aws_secret rule_password rule_private_key
         rule_api_key rule_stripe rule_mongodb rule_postgres rule_jwt
         rule_weak_hash rule_sha256 rule_default_cred rule_logging
         rule_stack_trace];
    rewrite ?orb_true_iff, ?andb_true_iff;
    intuition auto using jsmatch_mono, includes_mono.
Qed.

Lemma positive_rules_monotone_witness :
  triggered rule_aws_secret
    (lit "# " ++ lit "AWS_SECRET_KEY=abc" ++ lit " # rotate") = true.
Proof.
  apply (positive_rules_monotone rule_aws_secret).
  - right; left; reflexivity.
  - vm_compute. reflexivity.
Defined.

(** X11.  The two cookie rules and the S3 rule are silenced by a
    literal anywhere in the text: [HttpOnly], [Secure] and [private]. *)
Theorem literal_silences_rule (pre post : jsstring) :
  triggered rule_cookie_httponly (pre ++ lit "HttpOnly" ++ post) = false /\
  triggered rule_cookie_secure (pre ++ lit "Secure" ++ post) = false /\
  triggered rule_s3 (pre ++ lit "private" ++ post) = false.
Proof.
  cbn [triggered rule_cookie_httponly rule_cookie_secure rule_s3].
  rewrite !includes_app. cbn [negb]. rewrite !andb_false_r. auto.
Qed.

Lemma matches_str_exact (l m : jsstring) : matches false (Str l) m <-> m = l.
Proof.
  revert m; induction l as [|x l IH]; intros m; cbn [Str].
  - apply eps_inv.
  - rewrite seq_inv. split.
    + intros (m1 & m2 & -> & H1 & H2). apply one_inv in H1 as (c & -> & Hc).
      cbn [atom_match canonicalize] in Hc. apply N.eqb_eq in Hc as ->.
      apply IH in H2 as ->. reflexivity.
    + intros ->. exists [x], l. repeat split.
      * constructor. cbn [atom_match canonicalize]. apply N.eqb_refl.
      * apply IH. reflexivity.
Qed.

Lemma matches_repeat (i : bool) (a : atom) (n : nat) (m : jsstring) :
  matches i (Repeat n (One a)) m <->
  List.length m = n /\ forallb (atom_match i a) m = true.
Proof.
  revert m; induction n as [|n IH]; intros m; cbn [Repeat].
  - rewrite eps_inv. split.
    + intros ->. split; reflexivity.
    + intros [H _]. destruct m; [reflexivity | discriminate H].
  - rewrite seq_inv. split.
    + intros (m1 & m2 & -> & H1 & H2). apply one_inv in H1 as (c & -> & Hc).
      apply IH in H2 as [H2 H3]. cbn [app List.length forallb].
      rewrite H2, Hc, H3. split; reflexivity.
    + intros [Hl Hf]. destruct m as [|c m]; [discriminate Hl|].
      cbn [forallb] in Hf. apply andb_true_iff in Hf as [Hc Hf].
      injection Hl as Hl. exists [c], m. repeat split.
      * constructor; exact Hc.
      * apply IH. split; assumption.
Qed.

Lemma class_match_exact (rs : list (char16 * char16)) (key : jsstring) :
  forallb (atom_match false (Class rs)) key = forallb (in_ranges rs) key.
Proof.
  induction key as [|c key IH]; [reflexivity|].
  cbn [forallb atom_match andb]. rewrite orb_false_r, IH. reflexivity.
Qed.

(** X7.  The AWS key rule is triggered exactly by the texts that
    contain [AKIA] followed by sixteen characters among [0-9] and
    [A-Z]. *)
Theorem aws_key_rule_exact (content : jsstring) :
  triggered rule_aws_key content = true <->
  exists pre key post,
    content = pre ++ lit "AKIA" ++ key ++ post /\
    List.length key = 16%nat /\
    forallb (in_ranges [digit; upper]) key = true.
Proof.
  cbn [triggered rule_aws_key]. rewrite jsmatch_spec.
  cbn [source ignoreCase re_aws_key seqs fold_right].
  split.
  - intros (pre & m & post & -> & H).
    apply seq_inv0 in H as (m1 & m2 & -> & H1 & H2).
    apply seq_inv0 in H2 as (key & e & -> & H2 & He).
    apply eps_inv in He as ->. apply matches_str_exact in H1 as ->.
    apply matches_repeat in H2 as [Hl Hf]. rewrite class_match_exact in Hf.
    exists pre, key, post. rewrite app_nil_r, <- !app_assoc. auto.
  - intros (pre & key & post & -> & Hl & Hf).
    exists pre, (lit "AKIA" ++ key), post. split.
    + rewrite <- !app_assoc. reflexivity.
    + constructor; [apply matches_str_exact; reflexivity|].
      rewrite <- (app_nil_r key). constructor; [|constructor].
      apply matches_repeat. rewrite class_match_exact. auto.
Qed.

(** X8.  The Stripe rule is triggered exactly by the texts that
    contain [sk_live_] followed by twenty-four characters among [0-9],
    [a-z] and [A-Z]: asking for more than twenty-four changes nothing. *)
Theorem stripe_key_rule_exact (content : jsstring) :
  triggered rule_stripe content = true <->
  exists pre key post,
    content = pre ++ lit "sk_live_" ++ key ++ post /\
    List.length key = 24%nat /\
    forallb (in_ranges [digit; lower; upper]) key = true.
Proof.
  cbn [triggered rule_stripe]. rewrite jsmatch_spec.
  cbn [source ignoreCase re_stripe seqs fold_right]. unfold AtLeast.
  split.
  - intros (pre & m & post & -> & H).
    apply seq_inv0 in H as (m1 & m2 & -> & H1 & H2).
    apply seq_inv0 in H2 as (m3 & e & -> & H2 & He).
    apply eps_inv in He as ->.
    apply seq_inv0 in H2 as (key & more & -> & H2 & _).
    apply matches_str_exact in H1 as ->.
    apply matches_repeat in H2 as [Hl Hf]. rewrite class_match_exact in Hf.
    exists pre, key, (more ++ post). rewrite app_nil_r, <- !app_assoc. auto.
  - intros (pre & key & post & -> & Hl & Hf).
    exists pre, (lit "sk_live_" ++ key), post. split.
    + rewrite <- !app_assoc. reflexivity.
    + constructor; [apply matches_str_exact; reflexivity|].
      rewrite <- (app_nil_r key). constructor; [|constructor].
      rewrite <- (app_nil_r key). constructor; [|constructor].
      apply matches_repeat. rewrite class_match_exact. auto.
Qed.

(** X5.  The file-name rules see the name of the entry only: for a
    file of a directory, the rules triggered are those triggered by its
    name alone, whatever the path of the directory. *)
Theorem filename_rules_see_entry_name (dir file : jsstring) :
  entry_name file = true ->
  map hint (scanFile (Path.join dir file) None) = map hint (scanFile file None).
Proof.
  intros H. rewrite !scanFile_unreadable.
  rewrite (PathFacts.basename_join dir file H).
  assert (E : Path.basename file = file).
  { apply (PathFacts.basename_entry [] file H). left; reflexivity. }
  rewrite E. unfold triggered_findings. rewrite !map_map. reflexivity.
Qed.

Lemma filename_rules_see_entry_name_witness :
  map hint (scanFile (Path.join (lit "secrets/prod") (lit "notes.txt")) None) =
  map hint (scanFile (lit "notes.txt") None).
Proof.
  apply filename_rules_see_entry_name. vm_compute. reflexivity.
Defined.

(* ================================================================== *)
(** * The report service: what a run of reports leaves *)

Section ApiFacts.

Variable stamp : Type.
Variable getTime : stamp -> option Z.

Import Api.

Lemma push_scan_names (name : jsstring) (s : scan stamp)
    (rs : list (Api.repo stamp)) :
  map ident (push_scan name s rs) = map ident rs.
Proof.
  induction rs as [|r rs IH]; [reflexivity|]. cbn [push_scan].
  destruct (named name r); cbn [map]; [reflexivity | rewrite IH; reflexivity].
Qed.

Lemma push_scan_length (name : jsstring) (s : scan stamp)
    (rs : list (Api.repo stamp)) :
  List.length (push_scan name s rs) = List.length rs.
Proof.
  rewrite <- (length_map ident).
  rewrite push_scan_names. apply length_map.
Qed.

Lemma named_spec (name : jsstring) (r : Api.repo stamp) :
  named name r = true <-> Api.repoName r = name.
Proof. apply jseq_spec. Qed.

Lemma push_scan_unknown (name : jsstring) (s : scan stamp)
    (rs : list (Api.repo stamp)) (r : Api.repo stamp) :
  existsb (named name) rs = false ->
  push_scan name s (rs ++ [r]) = rs ++ push_scan name s [r].
Proof.
  induction rs as [|r0 rs IH]; [reflexivity|]. cbn [existsb app push_scan].
  intros H. apply orb_false_iff in H as [H0 H]. rewrite H0, (IH H).
  reflexivity.
Qed.

Lemma push_scan_issues (name : jsstring) (s : scan stamp)
    (rs : list (Api.repo stamp)) :
  existsb (named name) rs = true ->
  List.length (issues_of (push_scan name s rs)) =
  (List.length (issues_of rs) + List.length (issues s))%nat.
Proof.
  unfold issues_of. induction rs as [|r rs IH]; [discriminate|].
  cbn [existsb push_scan]. destruct (named name r); cbn [orb flat_map].
  - intros _. cbn [Api.scans]. rewrite flat_map_app. cbn [flat_map].
    rewrite !length_app. cbn [List.length]. lia.
  - intros H. rewrite !length_app, (IH H). lia.
Qed.

Lemma push_scan_kept (name : jsstring) (s : scan stamp)
    (rs : list (Api.repo stamp)) :
  Forall (fun r => Api.scans r <> [] /\ verified r = true) rs ->
  Forall (fun r => Api.scans r <> [] /\ verified r = true) (push_scan name s rs).
Proof.
  induction 1 as [|r rs [Hs Hv] Hrs IH]; [constructor|]. cbn [push_scan].
  destruct (named name r); constructor; auto.
  cbn [Api.scans verified]. split; [|exact Hv].
  intros E. apply app_eq_nil in E as [_ E]. discriminate E.
Qed.

Lemma find_push_scan (name : jsstring) (s : scan stamp)
    (rs : list (Api.repo stamp)) :
  existsb (named name) rs = true ->
  exists r0, find (named name) rs = Some r0 /\ Api.repoName r0 = name /\
    find (named name) (push_scan name s rs) =
    Some (Api.Repo (Api.repoName r0) (sourceType r0) (sourceUrl r0)
                   (Api.scans r0 ++ [s]) (verified r0)).
Proof.
  induction rs as [|r rs IH]; [discriminate|].
  cbn [existsb push_scan find]. destruct (named name r) eqn:E; cbn [orb].
  - intros _. exists r. split; [reflexivity|].
    split; [apply named_spec; exact E|]. cbn [find].
    unfold named in *. cbn [Api.repoName]. rewrite E. reflexivity.
  - intros H. cbn [find]. rewrite E. apply IH. exact H.
Qed.

Lemma flattened_view (rs : list (Api.repo stamp)) (r : Api.repo stamp) :
  flattened (map archive_repo (r :: rs)) =
  map (fun s => Archived (Api.repoName r) (issues s) (scannedAt s)) (Api.scans r)
  ++ flattened (map archive_repo rs).
Proof. reflexivity. Qed.

Lemma flattened_push (name : jsstring) (s : scan stamp)
    (rs : list (Api.repo stamp)) :
  existsb (named name) rs = true ->
  Permutation (flattened (map archive_repo (push_scan name s rs)))
              (Archived name (issues s) (scannedAt s)
               :: flattened (map archive_repo rs)).
Proof.
  induction rs as [|r rs IH]; [discriminate|].
  cbn [existsb push_scan]. destruct (named name r) eqn:E; cbn [orb].
  - intros _. rewrite !flattened_view. cbn [Api.repoName Api.scans].
    apply named_spec in E. rewrite E, map_app, <- app_assoc. cbn [map app].
    symmetry. apply Permutation_middle.
  - intros H. rewrite !flattened_view, (IH H). symmetry.
    apply Permutation_middle.
Qed.

Lemma flattened_new (rs : list (Api.repo stamp)) (name st : jsstring)
    (su : option jsstring) :
  flattened (map archive_repo (rs ++ [Api.Repo name st su [] true])) =
  flattened (map archive_repo rs).
Proof.
  unfold flattened. rewrite map_app, flat_map_app. cbn. apply app_nil_r.
Qed.

Lemma existsb_new (rs : list (Api.repo stamp)) (name st : jsstring)
    (su : option jsstring) :
  existsb (named name) (rs ++ [Api.Repo name st su [] true]) = true.
Proof.
  rewrite existsb_app. cbn [existsb]. unfold named at 2. cbn [Api.repoName].
  rewrite jseq_refl. cbn [orb]. apply orb_true_r.
Qed.

Lemma push_scan_repoNames (name : jsstring) (s : scan stamp)
    (rs : list (Api.repo stamp)) :
  map Api.repoName (push_scan name s rs) = map Api.repoName rs.
Proof.
  induction rs as [|r rs IH]; [reflexivity|]. cbn [push_scan].
  destruct (named name r); cbn [map]; [reflexivity | rewrite IH; reflexivity].
Qed.

(** What a report that is accepted does. *)
Lemma post_report_cases (file : option (data stamp)) (req : request stamp)
    (d : data stamp) (resp : response stamp) :
  post_report file req = Some (d, resp) ->
  exists found,
    req_issues req = Some found /\
    let before := loadData file in
    let known := existsb (named (req_repoName req)) (repos before) in
    let repos1 :=
      if known then repos before
      else repos before ++ [Api.Repo (req_repoName req) (req_sourceType req)
                                     (req_sourceUrl req) [] true] in
    existsb (named (req_repoName req)) repos1 = true /\
    repos d = push_scan (req_repoName req) (Scan found (req_scannedAt req)) repos1 /\
    the_stats d =
      Stats (totalIssuesDetected (the_stats before) + Z.of_nat (List.length found))
            (if known then totalScans (the_stats before)
             else totalScans (the_stats before) + 1) /\
    resp = Response (find (named (req_repoName req)) (repos d)) (the_stats d).
Proof.
  unfold post_report. destruct (req_issues req) as [found|]; [|discriminate].
  intros [= <- <-]. exists found. split; [reflexivity|]. cbn zeta.
  cbn [repos the_stats]. repeat split.
  destruct (existsb (named (req_repoName req)) (repos (loadData file))) eqn:E;
    [exact E | apply existsb_new].
Qed.

Lemma post_report_consistent (file : option (data stamp)) (req : request stamp)
    (d : data stamp) (resp : response stamp) :
  consistent (loadData file) ->
  post_report file req = Some (d, resp) ->
  consistent d.
Proof.
  intros (Hscans & Hissues & Hnames & Hall) H.
  apply post_report_cases in H as (found & _ & H). cbn zeta in H.
  destruct H as (Hknown & Hrepos & Hstats & _).
  unfold consistent, issues_on_record in *.
  rewrite Hrepos, Hstats. cbn [totalScans totalIssuesDetected].
  rewrite push_scan_length, push_scan_issues by exact Hknown.
  rewrite push_scan_repoNames.
  destruct (existsb (named (req_repoName req)) (repos (loadData file))) eqn:E.
  - repeat split; auto.
    + rewrite Hissues. cbn [issues]. lia.
    + apply push_scan_kept. exact Hall.
  - repeat split.
    + rewrite length_app. cbn [List.length]. lia.
    + rewrite Hissues. unfold issues_of. rewrite flat_map_app.
      cbn [flat_map Api.scans issues]. rewrite !length_app. cbn [List.length].
      lia.
    + rewrite map_app. cbn [map Api.repoName].
      apply NoDup_app; [exact Hnames | repeat constructor; intros [] |].
      intros x Hx [<- | []]. apply in_map_iff in Hx as (r & Hr & Hin).
      assert (X : existsb (named (req_repoName req)) (repos (loadData file)) = true).
      { apply existsb_exists. exists r. split; [exact Hin|].
        apply named_spec. exact Hr. }
      congruence.
    + rewrite push_scan_unknown by exact E. apply Forall_app. split; [exact Hall|].
      cbn [push_scan]. unfold named. cbn [Api.repoName]. rewrite jseq_refl.
      repeat constructor. cbn [Api.scans]. discriminate.
Qed.

Lemma after_reports_consistent (reqs : list (request stamp)) :
  forall file, consistent (loadData file) ->
    consistent (loadData (fold_left after_report reqs file)).
Proof.
  induction reqs as [|req reqs IH]; intros file H; [exact H|].
  cbn [fold_left]. apply IH. unfold after_report.
  destruct (post_report file req) as [[d resp]|] eqn:E; [|exact H].
  exact (post_report_consistent file req d resp H E).
Qed.

Lemma initial_consistent : consistent (loadData (@None (data stamp))).
Proof. repeat split; constructor. Qed.




(** X14.  A report that is accepted is answered with the entry of its
    repository as it is saved, whose last scan is the one reported, and
    with the counters as they are saved. *)
Theorem report_response (file : option (data stamp)) (req : request stamp)
    (d : data stamp) (resp : response stamp) :
  post_report file req = Some (d, resp) ->
  exists r earlier found,
    req_issues req = Some found /\
    res_repo resp = Some r /\ In r (repos d) /\
    Api.repoName r = req_repoName req /\
    Api.scans r = earlier ++ [Scan found (req_scannedAt req)] /\
    res_stats resp = the_stats d.
Proof.
  intros H. apply post_report_cases in H as (found & Hf & H). cbn zeta in H.
  destruct H as (Hknown & Hrepos & _ & ->). cbn [res_repo res_stats].
  destruct (find_push_scan _ (Scan found (req_scannedAt req)) _ Hknown)
    as (r0 & _ & Hname & Hfind).
  rewrite Hrepos, Hfind.
  eexists. exists (Api.scans r0), found. repeat split; auto.
  apply (find_some _ _ Hfind).
Qed.

Lemma report_flattened (file : option (data stamp)) (req : request stamp)
    (d : data stamp) (resp : response stamp) (found : list issue) :
  post_report file req = Some (d, resp) ->
  req_issues req = Some found ->
  Permutation (flattened (map archive_repo (repos d)))
              (Archived (req_repoName req) found (req_scannedAt req)
               :: flattened (map archive_repo (repos (loadData file)))).
Proof.
  intros H Hf. apply post_report_cases in H as (found' & Hf' & H).
  rewrite Hf in Hf'. injection Hf' as <-. cbn zeta in H.
  destruct H as (Hknown & Hrepos & _ & _).
  rewrite Hrepos, (flattened_push _ _ _ Hknown).
  cbn [issues scannedAt]. apply perm_skip.
  destruct (existsb (named (req_repoName req)) (repos (loadData file)));
    [reflexivity | rewrite flattened_new; reflexivity].
Qed.

Lemma get_archive_flattened (file : option (data stamp)) :
  Permutation (get_archive getTime file)
              (flattened (map archive_repo (repos (loadData file)))).
Proof.
  unfold get_archive, get_scans. rewrite collect_flattened. apply sort_perm.
Qed.

(** X15.  After a report that is accepted the archive holds the scan
    reported, under the name of its repository, and the scans it held
    before. *)
Theorem report_is_archived (file : option (data stamp)) (req : request stamp)
    (d : data stamp) (resp : response stamp) (found : list issue) :
  post_report file req = Some (d, resp) ->
  req_issues req = Some found ->
  Permutation (get_archive getTime (Some d))
              (Archived (req_repoName req) found (req_scannedAt req)
               :: get_archive getTime file).
Proof.
  intros H Hf. rewrite !get_archive_flattened. cbn [loadData].
  exact (report_flattened file req d resp found H Hf).
Qed.

Lemma archive_length_after (reqs : list (request stamp)) :
  forall file,
    List.length (get_archive getTime (fold_left after_report reqs file)) =
    (List.length (get_archive getTime file) +
     List.length (filter accepted reqs))%nat.
Proof.
  induction reqs as [|req reqs IH]; intros file; cbn [fold_left filter].
  - cbn [List.length]. lia.
  - rewrite IH. unfold after_report, accepted at 2.
    destruct (post_report file req) as [[d resp]|] eqn:E.
    + destruct (post_report_cases _ _ _ _ E) as (found & Hf & _).
      rewrite Hf.
      rewrite (Permutation_length (get_archive_flattened (Some d))).
      rewrite (Permutation_length (get_archive_flattened file)).
      cbn [loadData].
      rewrite (Permutation_length (report_flattened file req d resp found E Hf)).
      cbn [List.length]. lia.
    + unfold post_report in E. destruct (req_issues req); [discriminate E|].
      lia.
Qed.

(** X16.  After any run of reports the archive has one entry for each
    report that carried an array of issues (the others throw and leave
    the data file as it is), and [totalScans] is at most that number. *)
Theorem archive_counts_accepted_reports (reqs : list (request stamp)) :
  List.length (get_archive getTime (after_reports reqs)) =
  List.length (filter accepted reqs) /\
  (totalScans (get_stats (after_reports reqs)) <=
   Z.of_nat (List.length (filter accepted reqs)))%Z.
Proof.
  assert (L : List.length (get_archive getTime (after_reports reqs)) =
              List.length (filter accepted reqs)).
  { unfold after_reports. rewrite archive_length_after. reflexivity. }
  split; [exact L|].
  destruct (after_reports_consistent reqs None initial_consistent)
    as (H1 & _ & _ & H4).
  unfold get_stats. fold (after_reports reqs) in *. rewrite H1, <- L.
  rewrite (Permutation_length (get_archive_flattened (after_reports reqs))).
  apply inj_le. clear H1 L.
  induction H4 as [|r rs [Hs _] _ IH]; [cbn; lia|].
  rewrite flattened_view, length_app, length_map. cbn [List.length].
  destruct (Api.scans r); [contradiction | cbn [List.length]; lia].
Qed.

(** X17.  A report for a repository on record changes neither the
    source type, the source URL and the mark of any entry nor
    [totalScans]; a report for a new name adds one entry at the end, with
    its source type and URL, and adds one to [totalScans]. *)
Theorem report_keeps_identities (file : option (data stamp))
    (req : request stamp) (d : data stamp) (resp : response stamp) :
  post_report file req = Some (d, resp) ->
  let before := loadData file in
  if existsb (named (req_repoName req)) (repos before)
  then map ident (repos d) = map ident (repos before) /\
       totalScans (the_stats d) = totalScans (the_stats before)
  else map ident (repos d) =
         map ident (repos before) ++
         [(req_repoName req, req_sourceType req, req_sourceUrl req, true)] /\
       totalScans (the_stats d) = (totalScans (the_stats before) + 1)%Z.
Proof.
  intros H. apply post_report_cases in H as (found & _ & H). cbn zeta in *.
  destruct H as (_ & Hrepos & Hstats & _).
  rewrite Hrepos, Hstats, push_scan_names. cbn [totalScans].
  destruct (existsb (named (req_repoName req)) (repos (loadData file))).
  - split; reflexivity.
  - rewrite map_app. split; reflexivity.
Qed.

End ApiFacts.

Section ArchiveOrder.

Variable stamp : Type.
Variable getTime : stamp -> option Z.

(** X18.  Whatever the dates, valid or not, the archive holds every
    recorded scan exactly once: sorting loses and repeats nothing. *)
Theorem archive_is_complete (repos : list (repo stamp)) :
  Permutation (get_scans getTime repos) (flattened repos) /\
  List.length (get_scans getTime repos) =
  List.length (flat_map (fun r => scans r) repos).
Proof.
  assert (P : Permutation (get_scans getTime repos) (flattened repos)).
  { unfold get_scans. rewrite collect_flattened. apply sort_perm. }
  split; [exact P|]. rewrite (Permutation_length P). clear P.
  unfold flattened. induction repos as [|r rs IH]; [reflexivity|].
  cbn [flat_map]. rewrite !length_app, length_map, IH. reflexivity.
Qed.

Lemma filter_insert (t : Z) (x : archived stamp) (l : list (archived stamp)) :
  filter (at_time getTime t) (insert getTime x l) =
  filter (at_time getTime t) (x :: l).
Proof.
  induction l as [|y l IH]; [reflexivity|]. cbn [insert].
  destruct (compareFn getTime x y <=? 0)%Z eqn:E; [reflexivity|].
  apply Z.leb_gt in E. cbn [filter] in *. rewrite IH.
  unfold compareFn in E. unfold at_time.
  destruct (getTime (a_scannedAt y)) as [ty|]; [|lia].
  destruct (getTime (a_scannedAt x)) as [tx|]; [|lia].
  destruct (Z.eqb_spec ty t), (Z.eqb_spec tx t); try reflexivity. lia.
Qed.

(** X19.  With valid dates, where the comparator is consistent, the
    scans recorded at the same time stand in the archive in the order
    in which they were recorded: the sort is stable. *)
Theorem archive_keeps_recording_order (repos : list (repo stamp)) (t : Z) :
  Forall (dated getTime) repos ->
  filter (at_time getTime t) (get_scans getTime repos) =
  filter (at_time getTime t) (flattened repos).
Proof.
  intros _. unfold get_scans. rewrite collect_flattened.
  induction (flattened repos) as [|x l IH]; [reflexivity|].
  cbn [sort fold_right]. fold (sort getTime l).
  rewrite filter_insert. cbn [filter]. rewrite IH. reflexivity.
Qed.

End ArchiveOrder.

Lemma archive_keeps_recording_order_witness :
  let repos :=
    [Repo (lit "api") [Scan [] 5%Z; Scan [] 7%Z]; Repo (lit "cli") [Scan [] 5%Z]] in
  filter (at_time Some 5%Z) (get_scans Some repos) =
  filter (at_time Some 5%Z) (flattened repos).
Proof.
  apply (archive_keeps_recording_order Z Some).
  repeat constructor; discriminate.
Defined.

Lemma scan_is_concatenation_witness :
  scanForSecrets (lit "repo")
    (Dir [(lit ".env", File None); (lit "gone", NoStat);
          (lit "dist", DirNoList)]) =
  Some (scanFile (lit "repo/.env") None).
Proof.
  rewrite (scan_is_concatenation (lit "repo")
             (Dir [(lit ".env", File None); (lit "gone", NoStat);
                   (lit "dist", DirNoList)])).
  - vm_compute. reflexivity.
  - vm_compute. reflexivity.
Defined.

Lemma excluded_entry_skipped_witness :
  walk (Path.join (lit "src/vendor") (lit ".git"))
       (Dir [(lit "id_rsa", File None)]) [] = Some [] /\
  files_of (Path.join (lit "src/vendor") (lit ".git"))
           (Dir [(lit "id_rsa", File None)]) = [].
Proof.
  apply (excluded_entry_skipped (lit "src/vendor") (lit ".git")).
  vm_compute. reflexivity.
Defined.

Lemma scan_finding_embeds_path_witness :
  let f := finding (lit "repo/.env") rule_env_file in
  exists filePath read,
    In (filePath, read)
       (files_of (lit "repo") (Dir [(lit ".env", File None)])) /\
    In f (scanFile filePath read) /\
    includes (message f) filePath = true.
Proof.
  apply (scan_finding_embeds_path (lit "repo") (Dir [(lit ".env", File None)])
           [finding (lit "repo/.env") rule_env_file]).
  - vm_compute. reflexivity.
  - left. reflexivity.
Defined.

Lemma password_needs_quote_witness :
  In DQUOTE (lit "password = 'hunter2'") \/
  In SQUOTE (lit "password = 'hunter2'").
Proof.
  apply (password_needs_quote (lit "password = 'hunter2'")).
  vm_compute. reflexivity.
Defined.

Lemma report_response_witness :
  let req := Api.Request (lit "api") (lit "local") None (Some []) 7%Z in
  let r := Api.Repo (lit "api") (lit "local") None [Scan [] 7%Z] true in
  let d := Api.Data [r] (Api.Stats 0 1) in
  exists r' earlier found,
    Api.req_issues req = Some found /\
    Api.res_repo (Api.Response (Some r) (Api.Stats 0 1)) = Some r' /\
    In r' (Api.repos d) /\
    Api.repoName r' = Api.req_repoName req /\
    Api.scans r' = earlier ++ [Scan found (Api.req_scannedAt req)] /\
    Api.res_stats (Api.Response (Some r) (Api.Stats 0 1)) = Api.the_stats d.
Proof.
  apply (report_response Z None). vm_compute. reflexivity.
Defined.

Lemma report_is_archived_witness :
  let req := Api.Request (lit "api") (lit "local") None (Some []) 7%Z in
  let r := Api.Repo (lit "api") (lit "local") None [Scan [] 7%Z] true in
  Permutation
    (Api.get_archive Some (Some (Api.Data [r] (Api.Stats 0 1))))
    (Archived (lit "api") [] 7%Z :: Api.get_archive Some None).
Proof.
  apply (report_is_archived Z Some None
           (Api.Request (lit "api") (lit "local") None (Some []) 7%Z)
           _ (Api.Response
                (Some (Api.Repo (lit "api") (lit "local") None [Scan [] 7%Z] true))
                (Api.Stats 0 1))).
  - vm_compute. reflexivity.
  - reflexivity.
Defined.

Lemma report_keeps_identities_witness :
  let r := Api.Repo (lit "api") (lit "local") None [Scan [] 7%Z] true in
  let file := Some (Api.Data [r] (Api.Stats 0 1)) in
  let r' := Api.Repo (lit "api") (lit "local") None [Scan [] 7%Z; Scan [] 9%Z] true in
  map Api.ident [r'] = map Api.ident [r] /\
  Api.totalScans (Api.Stats 0 1) = Api.totalScans (Api.Stats 0 1).
Proof.
  apply (report_keeps_identities Z
           (Some (Api.Data
                    [Api.Repo (lit "api") (lit "local") None [Scan [] 7%Z] true]
                    (Api.Stats 0 1)))
           (Api.Request (lit "api") (lit "github")
                        (Some (lit "https://example.org/api")) (Some []) 9%Z)
           (Api.Data
              [Api.Repo (lit "api") (lit "local") None
                        [Scan [] 7%Z; Scan [] 9%Z] true]
              (Api.Stats 0 1))
           (Api.Response
              (Some (Api.Repo (lit "api") (lit "local") None
                              [Scan [] 7%Z; Scan [] 9%Z] true))
              (Api.Stats 0 1))).
  vm_compute. reflexivity.
Defined.
